(** * AI PDF reader: text chunking, context assembly and chat history

    A shallow embedding of the core utilities of [main.py] and [app.py]:
    [TextProcessor.chunk_text], [TextProcessor.clean_text],
    [AIClient.ask_question], [ConversationManager] and the context assembly of
    [OllamaAssistant.chat] / [main].

    Python values are modelled as follows.
    - [int] is [Z] (unbounded, possibly negative).
    - [str] is a list of Unicode code points ([N]).
    - A slice [s[lo:hi]] and [str.rfind] normalise their indices the way
      CPython does, negative indices included.
    - A [while] loop is a fuel-indexed iteration of its body; running out of
      fuel is the outcome [OutOfFuel], never a result. *)

From Stdlib Require Import ZArith NArith List Lia Bool String Ascii DecimalZ.
From stdpp Require Import gmap.
Import ListNotations.

Local Open Scope Z_scope.

(** ** Python strings, slices and [rfind] *)

Module Py.

Definition char := N.
Definition str := list char.

(** A literal of the source, code point by code point. *)
Definition lit (s : string) : str :=
  List.map N_of_ascii (list_ascii_of_string s).

Definition len {A} (l : list A) : Z := Z.of_nat (List.length l).

(** [PySlice_AdjustIndices] for step 1: a negative index counts from the end,
    and the result is clipped to [0, n]. *)
Definition adjust (n i : Z) : Z :=
  if i <? 0 then Z.max (i + n) 0 else Z.min i n.

(** [l[lo:hi]] *)
Definition slice {A} (l : list A) (lo hi : Z) : list A :=
  let lo' := adjust (len l) lo in
  let hi' := adjust (len l) hi in
  firstn (Z.to_nat (hi' - lo')) (skipn (Z.to_nat lo') l).

(** [l[lo:]] *)
Definition slice_from {A} (l : list A) (lo : Z) : list A :=
  skipn (Z.to_nat (adjust (len l) lo)) l.

(** [l[:hi]] *)
Definition slice_to {A} (l : list A) (hi : Z) : list A :=
  firstn (Z.to_nat (adjust (len l) hi)) l.

Fixpoint starts_with (sub s : str) : bool :=
  match sub, s with
  | [], _ => true
  | _ :: _, [] => false
  | a :: sub', b :: s' => N.eqb a b && starts_with sub' s'
  end.

(** Candidates [lo], ..., [lo + k - 1], tried from the right. *)
Fixpoint rscan (s sub : str) (lo : Z) (k : nat) : Z :=
  match k with
  | O => -1
  | S k' =>
      let i := lo + Z.of_nat k' in
      if starts_with sub (skipn (Z.to_nat i) s) then i else rscan s sub lo k'
  end.

(** [s.rfind(sub, start, end)]: CPython's [ADJUST_INDICES] followed by the
    search for the rightmost match lying inside [s[start:end]]; [-1] when
    there is none. *)
Definition rfind (s sub : str) (start end_ : Z) : Z :=
  let n := len s in
  let m := len sub in
  let hi := if end_ >? n then n
            else if end_ <? 0 then Z.max (end_ + n) 0 else end_ in
  let lo := if start <? 0 then Z.max (start + n) 0 else start in
  if hi - lo <? m then -1 else rscan s sub lo (Z.to_nat (hi - lo - m + 1)).

(** [sep.join(parts)] *)
Fixpoint join (sep : str) (parts : list str) : str :=
  match parts with
  | [] => []
  | [p] => p
  | p :: rest => p ++ sep ++ join sep rest
  end.

(** [str.isspace] on one code point, which is also the separator set of
    [str.split()] and [str.strip()] without arguments. *)
Definition isspace (c : char) : bool :=
  ((9 <=? c) && (c <=? 13))%N || ((28 <=? c) && (c <=? 32))%N
  || (c =? 133)%N || (c =? 160)%N || (c =? 5760)%N
  || ((8192 <=? c) && (c <=? 8202))%N || (c =? 8232)%N || (c =? 8233)%N
  || (c =? 8239)%N || (c =? 8287)%N || (c =? 12288)%N.

(** [s.split()]: the maximal runs of non-whitespace, left to right. [cur] is
    the run being read, most recent character first. *)
Fixpoint split_go (cur : str) (s : str) : list str :=
  match s with
  | [] => match cur with [] => [] | _ :: _ => [rev cur] end
  | c :: s' =>
      if isspace c
      then match cur with
           | [] => split_go [] s'
           | _ :: _ => rev cur :: split_go [] s'
           end
      else split_go (c :: cur) s'
  end.

Definition split (s : str) : list str := split_go [] s.

Fixpoint lstrip (s : str) : str :=
  match s with
  | [] => []
  | c :: s' => if isspace c then lstrip s' else s
  end.

(** [s.strip()] *)
Definition strip (s : str) : str := rev (lstrip (rev (lstrip s))).

End Py.

(** ** Outcomes of a call *)

Inductive error := ConfigurationError.

Inductive outcome (A : Type) :=
| Returned (a : A)
| Raised (e : error)
| OutOfFuel.
Arguments Returned {A} a.
Arguments Raised {A} e.
Arguments OutOfFuel {A}.

(** ** [TextProcessor] *)

Module TextProcessor.
Import Py.

Definition period_space : str := [46%N; 32%N].

Section Chunker.
Variable text : str.
Variables chunk_size overlap : Z.

(** Lines 92-99: the end of the window that starts at [start]. *)
Definition window_end (start : Z) : Z :=
  let end_ := start + chunk_size in
  if end_ <? len text then
    let sentence_end := rfind text period_space start end_ in
    if sentence_end >? start then sentence_end + 1 else end_
  else end_.

(** Line 102. *)
Definition next_start (end_ : Z) : Z :=
  if end_ <? len text then end_ - overlap else end_.

(** Lines 92-102 on the cursor alone: where one iteration leaves it. *)
Definition advance (start : Z) : Z := next_start (window_end start).

(** The cursor at the head of iteration [n] (counted from 0). *)
Fixpoint cursor_at (n : nat) : Z :=
  match n with
  | O => 0
  | S k => advance (cursor_at k)
  end.

(** One iteration of the loop body: cursor and chunk list before, after. *)
Definition chunk_step (st : Z * list str) : Z * list str :=
  let '(start, chunks) := st in
  let end_ := window_end start in
  (next_start end_, chunks ++ [slice text start end_]).

(** Lines 91-104. *)
Fixpoint chunk_loop (fuel : nat) (st : Z * list str) : outcome (list str) :=
  match fuel with
  | O => OutOfFuel
  | S fuel' =>
      if fst st <? len text
      then chunk_loop fuel' (chunk_step st)
      else Returned (snd st)
  end.

(** Whatever the chunks collected so far, the loop entered at [start] does
    not return. *)
Definition diverges_from (start : Z) : Prop :=
  forall fuel chunks, chunk_loop fuel (start, chunks) = OutOfFuel.

(** Lines 85-104. *)
Definition chunk_text (fuel : nat) : outcome (list str) :=
  if len text <=? chunk_size then Returned [text]
  else chunk_loop fuel (0, []).

(** The windows [(start, end)] the loop cuts, in order: the same iteration
    with the offsets kept instead of the substrings. *)
Definition window_step (st : Z * list (Z * Z)) : Z * list (Z * Z) :=
  let '(start, ws) := st in
  let end_ := window_end start in
  (next_start end_, ws ++ [(start, end_)]).

Fixpoint window_loop (fuel : nat) (st : Z * list (Z * Z))
  : outcome (list (Z * Z)) :=
  match fuel with
  | O => OutOfFuel
  | S fuel' =>
      if fst st <? len text
      then window_loop fuel' (window_step st)
      else Returned (snd st)
  end.

Definition chunk_windows (fuel : nat) : outcome (list (Z * Z)) :=
  if len text <=? chunk_size then Returned [(0, len text)]
  else window_loop fuel (0, []).

End Chunker.

(** Lines 106-111. *)
Definition clean_text (text : str) : str :=
  strip (join [32%N] (split text)).

End TextProcessor.

(** ** Chat messages *)

(** A message dictionary [{"role": ..., "content": ...}]. *)
Record message := Message { role : Py.str; content : Py.str }.

(** ** [AIClient] *)

Module AIClient.
Import Py.

Definition nl : str := [10%N].
Definition dquote : str := [34%N].

(** Lines 143-160. *)
Definition get_system_prompt : str :=
  lit "You are an intelligent PDF assistant with the following capabilities:" ++ nl ++ nl
  ++ lit "1. **Answer Questions**: Provide accurate answers based on the PDF content" ++ nl
  ++ lit "2. **Cite Sources**: Reference specific sections or pages when answering" ++ nl
  ++ lit "3. **Summarize**: Create concise summaries of document sections" ++ nl
  ++ lit "4. **Extract Information**: Find and extract specific data points" ++ nl
  ++ lit "5. **Compare**: Compare information across multiple documents" ++ nl ++ nl
  ++ lit "Guidelines:" ++ nl
  ++ lit "- Always base answers on the provided PDF content" ++ nl
  ++ lit "- If information is not in the document, clearly state: " ++ dquote
  ++ lit "This information is not available in the provided document(s)." ++ dquote ++ nl
  ++ lit "- Use markdown formatting for clarity (headers, lists, bold, etc.)" ++ nl
  ++ lit "- Be concise but thorough" ++ nl
  ++ lit "- Cite page numbers when possible" ++ nl ++ nl
  ++ lit "Remember: Your knowledge is limited to the provided PDF content only.".

(** The keyword arguments of [client.chat.completions.create] that vary
    between callers; temperatures are kept in hundredths. *)
Record request := Request {
  req_messages : list message;
  req_temperature_pct : Z;
  req_max_tokens : Z
}.

(** Lines 213-223: the message list [ask_question] builds. *)
Definition ask_question_messages
    (question pdf_context : str) (chat_history : option (list message))
  : list message :=
  let messages :=
    [ Message (lit "system") get_system_prompt;
      Message (lit "user") (lit "PDF Content:" ++ nl ++ nl ++ pdf_context) ] in
  let messages :=
    match chat_history with
    | Some ((_ :: _) as h) => messages ++ slice_from h (-10)
    | _ => messages
    end in
  messages ++ [ Message (lit "user") question ].

Section Client.
(** The completion service: the reply text, or a failure. *)
Variable create : request -> option str.

(** Lines 162-194; [None] is the [RuntimeError]. *)
Definition chat_completion
    (messages : list message) (temperature_pct max_tokens : Z) : option str :=
  create (Request messages temperature_pct max_tokens).

(** Lines 196-225. *)
Definition ask_question
    (question pdf_context : str) (chat_history : option (list message))
  : option str :=
  chat_completion (ask_question_messages question pdf_context chat_history) 30 1500.
End Client.

End AIClient.

(** ** [ConversationManager], by value *)

Module ConversationManager.
Import Py.

Record t := Manager { messages : list message; max_history : Z }.

(** Lines 240-242. *)
Definition init (max_history : Z) : t := Manager [] max_history.

(** Lines 249-250, on any list: trim to the last [max_history] entries. *)
Definition trim {A} (max_history : Z) (l : list A) : list A :=
  if len l >? max_history then slice_from l (- max_history) else l.

(** Lines 244-250. *)
Definition add_message (self : t) (role content : str) : t :=
  Manager (trim (max_history self) (messages self ++ [Message role content]))
          (max_history self).

(** Lines 252-254, as a value. *)
Definition get_history (self : t) : list message := messages self.

(** Lines 256-258. *)
Definition clear_history (self : t) : t := Manager [] (max_history self).

(** The messages a sequence of [(role, content)] calls appends. *)
Definition sent (calls : list (str * str)) : list message :=
  map (fun rc => Message (fst rc) (snd rc)) calls.

(** A sequence of [add_message] calls. *)
Definition add_all (self : t) (calls : list (str * str)) : t :=
  fold_left (fun s rc => add_message s (fst rc) (snd rc)) calls self.

End ConversationManager.

(** ** [ConversationManager], with list objects in a store

    [self.messages] is a reference to a list object whose entries are references
    to message dictionaries. [append] updates the list object in place, the
    slice of line 250 and [copy] allocate new list objects. *)

Module ConversationStore.
Import Py.

Definition loc := positive.

Record heap := Heap {
  lists : gmap loc (list loc);
  dicts : gmap loc message
}.

Record manager := Manager { messages : loc; max_history : Z }.

Definition alloc_list (h : heap) (l : list loc) : heap * loc :=
  let r := fresh (dom (lists h)) in
  (Heap (<[r := l]> (lists h)) (dicts h), r).

Definition alloc_dict (h : heap) (m : message) : heap * loc :=
  let d := fresh (dom (dicts h)) in
  (Heap (lists h) (<[d := m]> (dicts h)), d).

Definition store_list (h : heap) (r : loc) (l : list loc) : heap :=
  Heap (<[r := l]> (lists h)) (dicts h).

(** Lines 240-242. *)
Definition init (h : heap) (max_history : Z) : heap * manager :=
  let '(h', r) := alloc_list h [] in (h', Manager r max_history).

(** Lines 244-250. [None]: [self.messages] is no list of the store. *)
Definition add_message (h : heap) (self : manager) (role content : str)
  : option (heap * manager) :=
  match lists h !! messages self with
  | None => None
  | Some l =>
      let '(h1, d) := alloc_dict h (Message role content) in
      let l1 := l ++ [d] in
      let h2 := store_list h1 (messages self) l1 in
      if len l1 >? max_history self then
        let '(h3, r) := alloc_list h2 (slice_from l1 (- max_history self)) in
        Some (h3, Manager r (max_history self))
      else Some (h2, self)
  end.

(** Lines 252-254: [self.messages.copy()] is a new list object holding the
    same references. *)
Definition get_history (h : heap) (self : manager) : option (heap * loc) :=
  match lists h !! messages self with
  | None => None
  | Some l => Some (alloc_list h l)
  end.

(** What a caller can do to a list object it holds. *)
Inductive list_op :=
| Append (x : loc)            (* r.append(x) *)
| Extend (xs : list loc)      (* r.extend(xs) *)
| Insert (i : Z) (x : loc)    (* r.insert(i, x) *)
| Pop                         (* r.pop() *)
| DelSlice (lo hi : Z)        (* del r[lo:hi] *)
| Clear                       (* r.clear() *)
| Reverse                     (* r.reverse() *)
| Assign (xs : list loc).     (* r[:] = xs *)

Definition apply_op (op : list_op) (l : list loc) : list loc :=
  match op with
  | Append x => l ++ [x]
  | Extend xs => l ++ xs
  | Insert i x => slice_to l i ++ x :: slice_from l i
  | Pop => removelast l
  | DelSlice lo hi =>
      slice_to l lo ++ slice_from l (Z.max (adjust (len l) lo) (adjust (len l) hi))
  | Clear => []
  | Reverse => rev l
  | Assign xs => xs
  end.

Definition mutate (h : heap) (r : loc) (op : list_op) : heap :=
  match lists h !! r with
  | None => h
  | Some l => store_list h r (apply_op op l)
  end.

Definition mutate_all (h : heap) (r : loc) (ops : list list_op) : heap :=
  fold_left (fun h op => mutate h r op) ops h.

(** The messages a list object denotes. *)
Definition read (h : heap) (r : loc) : option (list message) :=
  match lists h !! r with
  | None => None
  | Some l => mapM (fun d => dicts h !! d) l
  end.

(** A caller changing a message dictionary it reached through a list. *)
Definition mutate_dict (h : heap) (d : loc) (m : message) : heap :=
  Heap (lists h) (<[d := m]> (dicts h)).

(** The manager by value that a stored manager stands for. *)
Definition view (h : heap) (self : manager) : option ConversationManager.t :=
  match read h (messages self) with
  | None => None
  | Some msgs => Some (ConversationManager.Manager msgs (max_history self))
  end.

End ConversationStore.

(** ** Context assembly in [app.py] *)

Module ContextSpec.
Import Py.

(** The texts one after the other with the delimiter between each two, by
    the list functions of the library. *)
Definition delimited (sep : str) (texts : list str) : str :=
  match texts with
  | [] => []
  | t :: rest => t ++ concat (map (fun d => sep ++ d) rest)
  end.

Definition total (ns : list Z) : Z := fold_right Z.add 0 ns.

(** The characters of the delimited text: those of the texts and one
    delimiter for each text after the first. *)
Definition delimited_length (sep : str) (texts : list str) : Z :=
  total (map len texts) + len sep * Z.max 0 (len texts - 1).

End ContextSpec.

Module App.
Import Py.

Definition budget : Z := 3000.

Definition marker : str := [10%N] ++ lit "[Document truncated...]".

(** [main], lines 182-184. *)
Definition main_pdf_context (pdf_texts : list str) : str :=
  match pdf_texts with
  | [] => []
  | _ :: _ => join [10%N; 10%N] pdf_texts
  end.

(** [OllamaAssistant.chat], lines 48-49. *)
Definition chat_context (pdf_context : str) : str :=
  if len pdf_context >? budget
  then slice_to pdf_context budget ++ marker
  else pdf_context.

(** [OllamaAssistant.chat], lines 51-61. *)
Definition chat_prompt (user_query pdf_context : str) : str :=
  match chat_context pdf_context with
  | [] => user_query
  | (_ :: _) as ctx =>
      lit "Answer the question based on this document:" ++ [10%N; 10%N]
      ++ lit "DOCUMENT:" ++ [10%N] ++ ctx ++ [10%N; 10%N]
      ++ lit "QUESTION: " ++ user_query ++ [10%N; 10%N] ++ lit "ANSWER:"
  end.

(** What [main] hands to [chat] and [chat] puts in the prompt. *)
Definition assemble_context (pdf_texts : list str) : str :=
  chat_context (main_pdf_context pdf_texts).

End App.

(** ** What the specification asks of a chunk list *)

Module ChunkSpec.
Import Py.

(** The chunks cover [text]: taking some prefix (the part shared with what
    came before) off each chunk and concatenating the rest gives [text]. *)
Definition covers (text : str) (chunks : list str) : Prop :=
  exists cuts : list nat,
    List.length cuts = List.length chunks /\
    concat (map (fun p => skipn (fst p) (snd p)) (combine cuts chunks)) = text.

(** The reading with the overlap fixed: every chunk after the first loses its
    first [overlap] characters. *)
Definition remainders (overlap : Z) (chunks : list str) : str :=
  match chunks with
  | [] => []
  | c :: rest => c ++ concat (map (skipn (Z.to_nat overlap)) rest)
  end.

(** Two consecutive chunks share [k] characters: the last [k] of the first are
    the first [k] of the second. *)
Definition shares (k : nat) (c1 c2 : str) : Prop :=
  (k <= List.length c1)%nat /\ (k <= List.length c2)%nat /\
  skipn (List.length c1 - k) c1 = firstn k c2.

(** A sentence terminator at index [p]: a period at [p], a space after it. *)
Definition terminator_at (text : str) (p : Z) : Prop :=
  0 <= p
  /\ nth_error text (Z.to_nat p) = Some 46%N
  /\ nth_error text (S (Z.to_nat p)) = Some 32%N.

(** A property of every two neighbours of a list. *)
Fixpoint all_consecutive {A} (R : A -> A -> Prop) (l : list A) : Prop :=
  match l with
  | a :: (b :: _) as rest => R a b /\ all_consecutive R rest
  | _ => True
  end.

(** The chunk a window stands for. *)
Definition cut (text : str) (w : Z * Z) : str := slice text (fst w) (snd w).

(** A cursor the loop has at the head of some iteration. *)
Definition reachable (text : str) (chunk_size overlap start : Z) : Prop :=
  exists k, TextProcessor.cursor_at text chunk_size overlap k = start.

(** The cursor moves forward: from a cursor of the run inside the text, a
    window that ends before the end of the text leaves the next cursor after
    this one. *)
Definition advancing (text : str) (chunk_size overlap : Z) : Prop :=
  forall start,
    reachable text chunk_size overlap start ->
    0 <= start < len text ->
    TextProcessor.window_end text chunk_size start < len text ->
    start < TextProcessor.window_end text chunk_size start - overlap.

(** The same, checked at every index of the text. *)
Definition advancingb (text : str) (chunk_size overlap : Z) : bool :=
  forallb
    (fun i =>
       let start := Z.of_nat i in
       let e := TextProcessor.window_end text chunk_size start in
       (len text <=? e) || (start <? e - overlap))
    (seq 0 (List.length text)).

(** Windows that follow one another as the loop intends, for a text of [n]
    characters entered at [start]: each starts at the cursor, inside the
    text, holds more than [overlap] and at most [chunk_size] characters, and
    the next one starts [overlap] before its end; the last one reaches the end
    of the text. *)
Fixpoint chained (chunk_size overlap n start : Z) (ws : list (Z * Z)) : Prop :=
  match ws with
  | [] => n <= start
  | (s, e) :: rest =>
      s = start /\ 0 <= s < n /\ s + overlap < e <= s + chunk_size
      /\ chained chunk_size overlap n (if e <? n then e - overlap else e) rest
  end.

Fixpoint nondecreasing (l : list Z) : bool :=
  match l with
  | a :: (b :: _) as rest => (a <=? b) && nondecreasing rest
  | _ => true
  end.

End ChunkSpec.

(** ** Words *)

Module Words.
Import Py.

Definition nonspace (c : char) : bool := negb (isspace c).

(** A word: at least one character, none of them whitespace. *)
Definition word (w : str) : Prop :=
  w <> [] /\ Forall (fun c => isspace c = false) w.

(** Nothing but whitespace. *)
Definition blank (s : str) : Prop := Forall (fun c => isspace c = true) s.

(** Every whitespace character of [s] is one U+0020 that stands between two
    characters that are not whitespace. *)
Definition single_spaced (s : str) : Prop :=
  forall l1 c l2,
    s = l1 ++ c :: l2 -> isspace c = true ->
    c = 32%N
    /\ (exists l a, l1 = l ++ [a] /\ isspace a = false)
    /\ (exists b l, l2 = b :: l /\ isspace b = false).

End Words.

(** ** The most recent entries of a history *)

Module Recent.

(** The last [k] entries of [l], in their order; all of [l] when it has at
    most [k]. *)
Definition last_n {A} (k : nat) (l : list A) : list A :=
  skipn (List.length l - k) l.

End Recent.

(** ** Concrete texts *)

Module Inputs.
Import Py.

(** [main.py], line 296: the text of the module's own example run. *)
Definition sample_text : str :=
  concat (repeat (lit "This is a sample text. ") 100).

(** Three texts of eighteen characters that open with a short sentence: the
    only terminator is at index 1, 1 and 2. *)
Definition stalled_text : str := lit "x. yyyyyyyyyyyyyyyy".
Definition lost_text : str := lit "a. bcdefghijklmnop".
Definition negative_text : str := lit "ab. cdefghijklmnop".

(** ["Hi. "] and ten thousand times ["x"]. *)
Definition long_text : str := lit "Hi. " ++ repeat 120%N (Z.to_nat 10000).

(** Four sentences, forty-eight characters. *)
Definition tea_text : str :=
  lit "It rains. We stay in. Tea is made. All is well.".

End Inputs.

(** ** Exceptions and [str(int)] *)

Module Exc.
Import Py.

(** The exceptions the code raises itself, with their message. *)
Inductive exn :=
| ValueError (msg : str)
| RuntimeError (msg : str).

Inductive result (A : Type) :=
| Ok (a : A)
| Raise (e : exn).
Arguments Ok {A} a.
Arguments Raise {A} e.

(** [str(e)] *)
Definition message_of (e : exn) : str :=
  match e with
  | ValueError msg => msg
  | RuntimeError msg => msg
  end.

Fixpoint uint_digits (u : Decimal.uint) : str :=
  match u with
  | Decimal.Nil => []
  | Decimal.D0 u => 48%N :: uint_digits u
  | Decimal.D1 u => 49%N :: uint_digits u
  | Decimal.D2 u => 50%N :: uint_digits u
  | Decimal.D3 u => 51%N :: uint_digits u
  | Decimal.D4 u => 52%N :: uint_digits u
  | Decimal.D5 u => 53%N :: uint_digits u
  | Decimal.D6 u => 54%N :: uint_digits u
  | Decimal.D7 u => 55%N :: uint_digits u
  | Decimal.D8 u => 56%N :: uint_digits u
  | Decimal.D9 u => 57%N :: uint_digits u
  end.

(** [str(n)] for an [int], which is also how an f-string shows it. *)
Definition str_of_int (n : Z) : str :=
  match Z.to_int n with
  | Decimal.Pos u => uint_digits u
  | Decimal.Neg u => 45%N :: uint_digits u
  end.

End Exc.

(** ** PDF files as the extractors see them *)

Module Pdf.
Import Py.

(** What [page.extract_text()] does: return a text or raise. *)
Inductive page :=
| PageText (t : str)
| PageRaises (e : str).

(** What [PyPDF2.PdfReader(pdf_file)] gives: the pages, or an exception with
    its message. *)
Inductive pdf :=
| Pages (ps : list page)
| Unreadable (e : str).

(** The header and text of one page: [f"[Page {page_num + 1}]\n{page_text}"]. *)
Definition page_part (page_num : Z) (page_text : str) : str :=
  lit "[Page " ++ Exc.str_of_int (page_num + 1) ++ lit "]" ++ [10%N] ++ page_text.

End Pdf.

(** ** [PDFExtractor] of [main.py] *)

Module PDFExtractor.
Import Py Exc Pdf.

(** Lines 34-43: the parts collected from the pages, [page_num] being the
    index of the first of them. A page that raises is logged and passed
    over. *)
Fixpoint text_parts (page_num : Z) (pages : list page) : list str :=
  match pages with
  | [] => []
  | PageText [] :: rest => text_parts (page_num + 1) rest
  | PageText ((_ :: _) as page_text) :: rest =>
      page_part page_num page_text :: text_parts (page_num + 1) rest
  | PageRaises _ :: rest => text_parts (page_num + 1) rest
  end.

(** Lines 22-49. *)
Definition extract_text_from_pdf (pdf_file : pdf) : result str :=
  match pdf_file with
  | Unreadable e => Raise (ValueError (lit "Failed to process PDF: " ++ e))
  | Pages ps => Ok (strip (join [10%N; 10%N] (text_parts 0 ps)))
  end.

End PDFExtractor.

(** ** [PDFProcessor] of [app.py] *)

Module PDFProcessor.
Import Py Exc Pdf.

(** Lines 13-17: the text after the pages, or [None] when a page raises. *)
Fixpoint read_pages (page_num : Z) (pages : list page) (text : str) : option str :=
  match pages with
  | [] => Some text
  | PageText [] :: rest => read_pages (page_num + 1) rest text
  | PageText ((_ :: _) as extracted) :: rest =>
      read_pages (page_num + 1) rest
        (text ++ page_part page_num extracted ++ [10%N; 10%N])
  | PageRaises _ :: rest => None
  end.

(** Lines 10-21. Any exception is shown with [st.error] and the empty text is
    returned. *)
Definition extract_text (pdf_file : pdf) : str :=
  match pdf_file with
  | Unreadable _ => []
  | Pages ps =>
      match read_pages 0 ps [] with
      | Some text => strip text
      | None => []
      end
  end.

End PDFProcessor.

(** ** [TextProcessor.get_text_stats] *)

Module Stats.
Import Py.

(** [s.split(sep)] for a separator that is not empty (an empty one raises
    [ValueError]): the pieces between the matches of [sep], found from the
    left and not overlapping. [skip] counts the characters of a match still to
    be passed over, [cur] is the piece being read, most recent first. *)
Fixpoint split_sep_go (sep : str) (skip : nat) (cur : str) (s : str) : list str :=
  match s with
  | [] => [rev cur]
  | c :: s' =>
      match skip with
      | S k => split_sep_go sep k cur s'
      | O =>
          if starts_with sep s
          then rev cur :: split_sep_go sep (List.length sep - 1) [] s'
          else split_sep_go sep 0 (c :: cur) s'
      end
  end.

Definition split_sep (sep s : str) : list str := split_sep_go sep 0 [] s.

(** [s.count(sub)] for a [sub] that is not empty: the matches of [sub], found
    from the left and not overlapping. *)
Fixpoint count_go (sub : str) (skip : nat) (s : str) : Z :=
  match s with
  | [] => 0
  | c :: s' =>
      match skip with
      | S k => count_go sub k s'
      | O =>
          if starts_with sub s
          then 1 + count_go sub (List.length sub - 1) s'
          else count_go sub 0 s'
      end
  end.

Definition count (sub s : str) : Z := count_go sub 0 s.

Record text_stats := TextStats {
  characters : Z;
  words : Z;
  lines : Z;
  paragraphs : Z
}.

(** A string is true when it is not empty. *)
Definition nonempty (s : str) : bool :=
  match s with [] => false | _ :: _ => true end.

(** Lines 114-122. *)
Definition get_text_stats (text : str) : text_stats :=
  let words := split text in
  TextStats
    (len text)
    (len words)
    (count [10%N] text)
    (len (List.filter (fun p => nonempty (strip p)) (split_sep [10%N; 10%N] text))).

End Stats.

(** ** [AIClient] with its credentials and error messages *)

Module AzureClient.
Import Py Exc.

(** [os.environ] after [load_dotenv()]. *)
Definition environ := gmap str str.

Record client := Client {
  api_key : str;
  endpoint : str;
  api_version : str;
  model_name : str
}.

(** Line 135. *)
Definition not_configured : exn :=
  ValueError (lit "Azure OpenAI credentials not configured. Check .env file.").

(** Lines 128-141. [all([api_key, endpoint])] wants both set and not empty. *)
Definition init (env : gmap str str) : result client :=
  let api_key := env !! lit "AZURE_API_KEY" in
  let endpoint := env !! lit "AZURE_ENDPOINT" in
  let api_version := default (lit "2024-02-15-preview") (env !! lit "AZURE_API_VERSION") in
  let model_name := default (lit "gpt-4") (env !! lit "MODEL_NAME") in
  match api_key, endpoint with
  | Some ((_ :: _) as k), Some ((_ :: _) as e) => Ok (Client k e api_version model_name)
  | _, _ => Raise not_configured
  end.

(** A variable that is set and not empty. *)
Definition configured (env : gmap str str) (key : str) : Prop :=
  exists v, env !! key = Some v /\ v <> [].

(** What [client.chat.completions.create] is called with. *)
Record call := Call {
  call_model : str;
  call_messages : list message;
  call_temperature_pct : Z;
  call_max_tokens : Z
}.

Section Service.
(** The completion service: the content of the first choice ([inl]), or the
    text of the exception it raises ([inr]). *)
Variable create : call -> str + str.

(** Lines 162-194. *)
Definition chat_completion (self : client)
    (messages : list message) (temperature_pct max_tokens : Z) : result str :=
  match create (Call (model_name self) messages temperature_pct max_tokens) with
  | inl content => Ok content
  | inr e => Raise (RuntimeError (lit "AI request failed: " ++ e))
  end.

(** Lines 196-225. *)
Definition ask_question (self : client)
    (question pdf_context : str) (chat_history : option (list message))
  : result str :=
  chat_completion self
    (AIClient.ask_question_messages question pdf_context chat_history) 30 1500.

(** Lines 227-234. *)
Definition summarize_pdf (self : client) (pdf_text : str) (max_length : Z)
  : result str :=
  chat_completion self
    [ Message (lit "system")
        (lit "You are a document summarization expert. Create concise, informative summaries.");
      Message (lit "user")
        (lit "Summarize the following document in approximately "
         ++ str_of_int max_length ++ lit " words:" ++ [10%N; 10%N] ++ pdf_text) ]
    50 (max_length * 2).

(** Lines 276-278, the module-level [get_system_prompt]. *)
Definition legacy_get_system_prompt (env : gmap str str) : result str :=
  match init env with
  | Ok _ => Ok AIClient.get_system_prompt
  | Raise e => Raise e
  end.

(** Lines 281-287, the module-level [ask_question]. *)
Definition legacy_ask_question (env : gmap str str)
    (messages : list message) (user_query : str) : str :=
  match init env with
  | Raise e => lit "Error: " ++ message_of e
  | Ok client =>
      match chat_completion client
              (messages ++ [Message (lit "user") user_query]) 30 1500 with
      | Ok answer => answer
      | Raise e => lit "Error: " ++ message_of e
      end
  end.

End Service.

End AzureClient.

(** ** [ConversationManager.get_summary] *)

Module Summary.
Import Py.

(** Line 265: the content as the summary shows it. *)
Definition shown (content : str) : str :=
  if len content >? 100 then slice_to content 100 ++ lit "..." else content.

Section Upper.
(** [str.upper] *)
Variable upper : str -> str.

(** Lines 264-266. *)
Definition summary_line (msg : message) : str :=
  upper (role msg) ++ lit ": " ++ shown (content msg).

(** Lines 260-267. *)
Definition get_summary (self : ConversationManager.t) : str :=
  join [10%N] (map summary_line (ConversationManager.messages self)).

End Upper.

End Summary.

(** ** [OllamaAssistant] *)

Module Ollama.
Import Py Exc.

(** The body of [GET /api/tags] as the code reads it: [.json()] raises, or
    the object has no ["models"] entry, or it has a list of models, each with
    its ["name"] or without one. *)
Inductive tags_body :=
| TagsRaises
| TagsModels (models : option (list (option str))).

(** A reply with its status code, or an exception of [requests.get]. *)
Definition tags_reply := option (Z * tags_body).

(** Lines 29-34. *)
Definition check_connection (reply : tags_reply) : bool :=
  match reply with
  | Some (status_code, _) => status_code =? 200
  | None => false
  end.

(** [[model['name'] for model in models]]: [None] is the [KeyError]. *)
Fixpoint names_of (models : list (option str)) : option (list str) :=
  match models with
  | [] => Some []
  | None :: _ => None
  | Some name :: rest =>
      match names_of rest with
      | Some names => Some (name :: names)
      | None => None
      end
  end.

(** Lines 36-44. *)
Definition get_available_models (reply : tags_reply) : list str :=
  match reply with
  | Some (status_code, body) =>
      if status_code =? 200 then
        match body with
        | TagsModels (Some models) =>
            match names_of models with
            | Some names => names
            | None => []
            end
        | TagsModels None => []
        | TagsRaises => []
        end
      else []
  | None => []
  end.

(** The JSON sent to [/api/generate]; ["stream"] and ["options"] are the same
    in every call. *)
Record payload := Payload { p_model : str; p_prompt : str }.

(** The body of the reply as the code reads it: an object with its
    ["response"] text or without one, or something on which [.json()],
    [.get] or [.strip] raises. *)
Inductive generate_body :=
| BodyResponse (response : option str)
| BodyRaises (e : str).

Inductive post_result :=
| PostTimeout
| PostConnectionError
| PostRaises (e : str)
| PostReturns (status_code : Z) (body : generate_body).

Definition cross : str := [10060%N].
Definition clock : str := [9200%N].

Definition timeout_message : str :=
  clock ++ lit " Timeout! The model is taking too long. Try:" ++ [10%N]
  ++ lit "1. Using 'gemma3:1b' model (faster)" ++ [10%N]
  ++ lit "2. Asking a shorter question" ++ [10%N]
  ++ lit "3. Running: ollama run llama3 'test' in terminal first".

(** Lines 46-88. *)
Definition chat (post : payload -> post_result)
    (model_name user_query pdf_context : str) : str :=
  match post (Payload model_name (App.chat_prompt user_query pdf_context)) with
  | PostReturns status_code body =>
      if status_code =? 200 then
        match body with
        | BodyResponse (Some response) => strip response
        | BodyResponse None => strip (lit "No response generated")
        | BodyRaises e => cross ++ lit " Error: " ++ e
        end
      else cross ++ lit " Error: Ollama returned status " ++ str_of_int status_code
  | PostTimeout => timeout_message
  | PostConnectionError => cross ++ lit " Can't connect to Ollama. Run: ollama serve"
  | PostRaises e => cross ++ lit " Error: " ++ e
  end.

End Ollama.

(** ** The session of [app.py] *)

Module Session.
Import Py Pdf Ollama.

(** [st.session_state]: a key is absent until it is set. *)
Record session_state := SessionState {
  messages : option (list message);
  pdf_texts : option (list str);
  pdf_names : option (list str);
  selected_model : option str
}.

(** The state once every key is set. *)
Record session := Session {
  s_messages : list message;
  s_pdf_texts : list str;
  s_pdf_names : list str;
  s_selected_model : str
}.

Definition stored (s : session) : session_state :=
  SessionState (Some (s_messages s)) (Some (s_pdf_texts s))
               (Some (s_pdf_names s)) (Some (s_selected_model s)).

(** Lines 90-98. *)
Definition initialize_session_state (st : session_state) : session :=
  Session (default [] (messages st))
          (default [] (pdf_texts st))
          (default [] (pdf_names st))
          (default (lit "gemma3:1b") (selected_model st)).

(** [models.index(x)]: the first position of [x]; [None] is the
    [ValueError]. *)
Fixpoint index (x : str) (models : list str) : option nat :=
  match models with
  | [] => None
  | m :: rest =>
      if bool_decide (m = x) then Some 0%nat
      else match index x rest with
           | Some i => Some (S i)
           | None => None
           end
  end.

(** Line 116, for a list of models that is not empty. *)
Definition default_model (models : list str) : str :=
  if bool_decide (lit "gemma3:1b" ∈ models) then lit "gemma3:1b"
  else List.hd [] models.

(** Lines 117-120: 0 when [models.index] raises. *)
Definition default_index (models : list str) : nat :=
  match index (default_model models) models with
  | Some i => i
  | None => 0%nat
  end.

(** An uploaded file: its name and what the reader makes of it. *)
Record upload := Upload { name : str; file : pdf }.

(** Lines 138-142: the loop over the uploaded files. *)
Fixpoint process_files (uploaded_files : list upload) (texts names : list str)
  : list str * list str :=
  match uploaded_files with
  | [] => (texts, names)
  | pdf_file :: rest =>
      match PDFProcessor.extract_text (file pdf_file) with
      | [] => process_files rest texts names
      | (_ :: _) as text =>
          process_files rest (texts ++ [text]) (names ++ [name pdf_file])
      end
  end.

(** Lines 134-145: the body under the Process button. *)
Definition process (uploaded_files : list upload) (s : session) : session :=
  let '(texts, names) := process_files uploaded_files [] [] in
  Session (match texts with [] => s_messages s | _ :: _ => [] end)
          texts names (s_selected_model s).

(** Lines 153-155: the body under the Clear button. *)
Definition clear (s : session) : session :=
  Session [] [] [] (s_selected_model s).

(** Lines 177-191: a question is asked. *)
Definition ask (post : payload -> post_result) (user_input : str) (s : session)
  : session :=
  let messages := s_messages s ++ [Message (lit "user") user_input] in
  let pdf_context := App.main_pdf_context (s_pdf_texts s) in
  let response := chat post (s_selected_model s) user_input pdf_context in
  Session (messages ++ [Message (lit "assistant") response])
          (s_pdf_texts s) (s_pdf_names s) (s_selected_model s).

(** What one run of the script is given from outside. *)
Record run_inputs := RunInputs {
  tags : tags_reply;                 (* the reply to [GET /api/tags] *)
  selectbox : str;                   (* what [st.selectbox] returns *)
  uploaded_files : list upload;      (* what [st.file_uploader] returns *)
  process_button : bool;
  clear_button : bool;
  chat_input : option str;           (* what [st.chat_input] returns *)
  post : payload -> post_result      (* the reply to [POST /api/generate] *)
}.

(** Lines 100-192: one run of [main], from the stored state to the state it
    leaves. [st.rerun()] ends the run after Clear and after a question. *)
Definition main (i : run_inputs) (st : session_state) : session :=
  let s := initialize_session_state st in
  let s :=
    match get_available_models (tags i) with
    | [] => s
    | _ :: _ =>
        Session (s_messages s) (s_pdf_texts s) (s_pdf_names s) (selectbox i)
    end in
  let s :=
    match uploaded_files i with
    | [] => s
    | _ :: _ => if process_button i then process (uploaded_files i) s else s
    end in
  match s_pdf_names s with
  | _ :: _ =>
      if clear_button i then clear s
      else match chat_input i with
           | Some ((_ :: _) as user_input) => ask (post i) user_input s
           | _ => s
           end
  | [] =>
      match chat_input i with
      | Some ((_ :: _) as user_input) => ask (post i) user_input s
      | _ => s
      end
  end.

(** The state after a sequence of runs of a new session. *)
Definition runs (inputs : list run_inputs) : session_state :=
  fold_left (fun st i => stored (main i st)) inputs
            (SessionState None None None None).

(** Questions and answers take turns. *)
Definition dialogue (turns : list (str * str)) : list message :=
  flat_map (fun qa => [Message (lit "user") (fst qa);
                       Message (lit "assistant") (snd qa)]) turns.

(** What every run keeps: a name for each text, texts that are not empty and
    have no whitespace at either end, and messages that are questions and
    answers in turn. *)
Definition consistent (s : session) : Prop :=
  List.length (s_pdf_texts s) = List.length (s_pdf_names s)
  /\ Forall (fun t => t <> [] /\ strip t = t) (s_pdf_texts s)
  /\ exists turns, s_messages s = dialogue turns.

(** The uploaded files that give a text. *)
Definition with_text (uploaded_files : list upload) : list upload :=
  List.filter (fun f => Stats.nonempty (PDFProcessor.extract_text (file f)))
              uploaded_files.

End Session.

(** ** Kinds of pages *)

Module PdfSpec.
Import Py Pdf.

Definition has_text (p : page) : bool :=
  match p with PageText (_ :: _) => true | _ => false end.

Definition raises (p : page) : bool :=
  match p with PageRaises _ => true | PageText _ => false end.

(** The page with an extraction that raises replaced by an empty text. *)
Definition quiet (p : page) : page :=
  match p with PageRaises _ => PageText [] | PageText _ => p end.

End PdfSpec.

(** * Theorems *)

(** ** Slices *)

Module SliceFacts.
Import Py Recent.

Lemma len_nonneg {A} (l : list A) : 0 <= len l.
Proof. unfold len. lia. Qed.

Lemma len_app {A} (l1 l2 : list A) : len (l1 ++ l2) = len l1 + len l2.
Proof. unfold len. rewrite length_app. lia. Qed.

(** [l[-k:]] for a positive [k] is the last [k] entries. *)
Lemma slice_from_neg {A} (l : list A) (k : Z) :
  0 < k -> slice_from l (- k) = last_n (Z.to_nat k) l.
Proof.
  intros Hk. unfold slice_from, last_n, adjust.
  destruct (Z.ltb_spec (- k) 0) as [_ | Hge]; [| lia].
  f_equal. unfold len. lia.
Qed.

(** [l[-0:]] is [l[0:]]: the whole list. *)
Lemma slice_from_zero {A} (l : list A) : slice_from l (- 0) = l.
Proof.
  unfold slice_from, adjust. cbn [Z.opp Z.ltb Z.compare].
  rewrite Z.min_l by apply len_nonneg. reflexivity.
Qed.

(** [l[:k]] for a [k] that is not negative is the first [k] entries. *)
Lemma slice_to_nonneg {A} (l : list A) (k : Z) :
  0 <= k -> slice_to l k = firstn (Z.to_nat k) l.
Proof.
  intros Hk. unfold slice_to, adjust.
  destruct (Z.ltb_spec k 0) as [Hlt | _]; [lia |].
  destruct (Z.le_gt_cases k (len l)) as [Hle | Hgt].
  - rewrite Z.min_l by exact Hle. reflexivity.
  - rewrite Z.min_r by lia. unfold len in *.
    rewrite Nat2Z.id, firstn_all.
    symmetry. apply firstn_all2. lia.
Qed.

Lemma last_n_length {A} (k : nat) (l : list A) :
  List.length (last_n k l) = Nat.min k (List.length l).
Proof. unfold last_n. rewrite length_skipn. lia. Qed.

Lemma last_n_suffix {A} (k : nat) (l : list A) :
  firstn (List.length l - k) l ++ last_n k l = l.
Proof. unfold last_n. apply firstn_skipn. Qed.

Lemma last_n_all {A} (k : nat) (l : list A) :
  (List.length l <= k)%nat -> last_n k l = l.
Proof.
  intros Hle. unfold last_n.
  replace (List.length l - k)%nat with 0%nat by lia. reflexivity.
Qed.

(** Keeping the last [k] of a prefix first changes nothing. *)
Lemma last_n_app_l {A} (k : nat) (a b : list A) :
  last_n k (last_n k a ++ b) = last_n k (a ++ b).
Proof.
  destruct (Nat.le_gt_cases (List.length a) k) as [Hle | Hgt].
  - rewrite (last_n_all k a) by exact Hle. reflexivity.
  - unfold last_n. rewrite !length_app, length_skipn.
    replace (List.length a - (List.length a - k) + List.length b - k)%nat
      with (List.length b) by lia.
    replace (List.length a + List.length b - k)%nat
      with (List.length b + (List.length a - k))%nat by lia.
    rewrite <- (skipn_skipn (List.length b) (List.length a - k) (a ++ b)).
    f_equal. rewrite skipn_app.
    replace (List.length a - k - List.length a)%nat with 0%nat by lia.
    reflexivity.
Qed.

(** A slice with indices that are not negative. *)
Lemma slice_nonneg {A} (l : list A) (s e : Z) :
  0 <= s -> 0 <= e ->
  slice l s e = firstn (Z.to_nat (e - s)) (skipn (Z.to_nat s) l).
Proof.
  intros Hs He. unfold slice, adjust.
  destruct (Z.ltb_spec s 0) as [Hneg | _]; [lia |].
  destruct (Z.ltb_spec e 0) as [Hneg | _]; [lia |].
  unfold len.
  destruct (Z.le_gt_cases s (Z.of_nat (List.length l))) as [Hsin | Hsout].
  - rewrite (Z.min_l s) by exact Hsin.
    destruct (Z.le_gt_cases e (Z.of_nat (List.length l))) as [Hein | Heout].
    + rewrite Z.min_l by exact Hein. reflexivity.
    + rewrite Z.min_r by lia.
      rewrite !firstn_all2; [reflexivity | |]; rewrite length_skipn; lia.
  - rewrite (Z.min_r s) by lia. rewrite Nat2Z.id, skipn_all.
    rewrite (skipn_all2 (n := Z.to_nat s)) by lia.
    rewrite !firstn_nil. reflexivity.
Qed.

Lemma slice_whole {A} (l : list A) : slice l 0 (len l) = l.
Proof.
  rewrite slice_nonneg by (pose proof (len_nonneg l); lia).
  rewrite Z.sub_0_r. unfold len. rewrite Nat2Z.id. cbn [Z.to_nat skipn].
  apply firstn_all.
Qed.

End SliceFacts.

(** ** [rfind] and the end of a window *)

Module FindFacts.
Import Py TextProcessor ChunkSpec SliceFacts.

Lemma rscan_spec (s sub : str) (lo : Z) (k : nat) :
  0 <= lo ->
  (rscan s sub lo k = -1
   /\ forall j, lo <= j < lo + Z.of_nat k ->
                starts_with sub (skipn (Z.to_nat j) s) = false)
  \/ (lo <= rscan s sub lo k < lo + Z.of_nat k
      /\ starts_with sub (skipn (Z.to_nat (rscan s sub lo k)) s) = true
      /\ forall j, rscan s sub lo k < j < lo + Z.of_nat k ->
                   starts_with sub (skipn (Z.to_nat j) s) = false).
Proof.
  intros Hlo. induction k as [| k IH].
  - left. split; [reflexivity | intros j Hj; lia].
  - cbn [rscan].
    destruct (starts_with sub (skipn (Z.to_nat (lo + Z.of_nat k)) s)) eqn:Hhit.
    + right. split; [lia | split; [exact Hhit | intros j Hj; lia]].
    + destruct IH as [[Hnone Hall] | (Hr & Hm & Hall)].
      * left. split; [exact Hnone |]. intros j Hj.
        destruct (Z.eq_dec j (lo + Z.of_nat k)) as [-> | Hne]; [exact Hhit |].
        apply Hall. lia.
      * right. split; [lia | split; [exact Hm |]]. intros j Hj.
        destruct (Z.eq_dec j (lo + Z.of_nat k)) as [-> | Hne]; [exact Hhit |].
        apply Hall. lia.
Qed.

(** [rfind] with indices inside the text: the rightmost match that lies
    wholly inside [s[start:end]], or -1. *)
Lemma rfind_spec (s sub : str) (start end_ : Z) :
  0 <= start -> 0 <= end_ <= len s ->
  (rfind s sub start end_ = -1
   /\ forall j, start <= j -> j + len sub <= end_ ->
                starts_with sub (skipn (Z.to_nat j) s) = false)
  \/ (start <= rfind s sub start end_
      /\ rfind s sub start end_ + len sub <= end_
      /\ starts_with sub (skipn (Z.to_nat (rfind s sub start end_)) s) = true
      /\ forall j, rfind s sub start end_ < j -> j + len sub <= end_ ->
                   starts_with sub (skipn (Z.to_nat j) s) = false).
Proof.
  intros Hstart Hend. unfold rfind.
  destruct (Z.gtb_spec end_ (len s)) as [Hgt | _]; [lia |].
  destruct (Z.ltb_spec end_ 0) as [Hlt | _]; [lia |].
  destruct (Z.ltb_spec start 0) as [Hlt | _]; [lia |].
  destruct (Z.ltb_spec (end_ - start) (len sub)) as [Hsmall | Hroom].
  - left. split; [reflexivity | intros j Hj1 Hj2; lia].
  - destruct (rscan_spec s sub start (Z.to_nat (end_ - start - len sub + 1)) Hstart)
      as [[Hnone Hall] | (Hr & Hm & Hall)].
    + left. split; [exact Hnone |]. intros j Hj1 Hj2. apply Hall. lia.
    + right. split; [lia | split; [lia | split; [exact Hm |]]].
      intros j Hj1 Hj2. apply Hall. lia.
Qed.

(** [rfind] for any indices, negative ones too: -1 or the index of a match
    inside the string. *)
Lemma rfind_range (s sub : str) (start end_ : Z) :
  rfind s sub start end_ = -1
  \/ (0 <= rfind s sub start end_ /\ rfind s sub start end_ + len sub <= len s).
Proof.
  pose proof (len_nonneg s) as Hn. pose proof (len_nonneg sub) as Hm.
  unfold rfind. cbv zeta.
  set (hi := if end_ >? len s then len s
             else if end_ <? 0 then Z.max (end_ + len s) 0 else end_).
  set (lo := if start <? 0 then Z.max (start + len s) 0 else start).
  assert (Hhi : hi <= len s).
  { subst hi. destruct (Z.gtb_spec end_ (len s)); [lia |].
    destruct (Z.ltb_spec end_ 0); lia. }
  assert (Hlo : 0 <= lo) by (subst lo; destruct (Z.ltb_spec start 0); lia).
  destruct (Z.ltb_spec (hi - lo) (len sub)) as [_ | Hroom]; [now left |].
  destruct (rscan_spec s sub lo (Z.to_nat (hi - lo - len sub + 1)) Hlo)
    as [[Hnone _] | (Hr & _)]; [now left | right; lia].
Qed.

Lemma starts_with_terminator (text : str) (p : Z) :
  0 <= p ->
  starts_with period_space (skipn (Z.to_nat p) text) = true <-> terminator_at text p.
Proof.
  intros Hp. unfold terminator_at.
  rewrite <- (Nat.add_0_r (Z.to_nat p)) at 2.
  replace (S (Z.to_nat p)) with (Z.to_nat p + 1)%nat by lia.
  rewrite <- !nth_error_skipn.
  unfold period_space.
  destruct (skipn (Z.to_nat p) text) as [| a [| b rest]];
    cbn [starts_with nth_error].
  - split; [discriminate | intros (_ & H & _); discriminate].
  - split; [rewrite andb_false_r; discriminate | intros (_ & _ & H); discriminate].
  - rewrite andb_true_r. rewrite andb_true_iff, !N.eqb_eq.
    split.
    + intros [<- <-]. auto.
    + intros (_ & Ha & Hb). split; congruence.
Qed.

Lemma len_period_space : len period_space = 2.
Proof. reflexivity. Qed.

Section Window.
Variable text : str.
Variable chunk_size : Z.

(** A window that reaches the end of the text is left as it is. *)
Lemma window_end_last (start : Z) :
  len text <= start + chunk_size ->
  window_end text chunk_size start = start + chunk_size.
Proof.
  intros Hlast. unfold window_end.
  destruct (Z.ltb_spec (start + chunk_size) (len text)); [lia | reflexivity].
Qed.

(** For a cursor inside the text, the window ends after the cursor and no
    later than [chunk_size] characters on. *)
Lemma window_end_bounds (start : Z) :
  0 <= start -> 0 < chunk_size ->
  start < window_end text chunk_size start <= start + chunk_size.
Proof.
  intros Hstart Hsize. unfold window_end.
  destruct (Z.ltb_spec (start + chunk_size) (len text)) as [Hin | Hout]; [| lia].
  destruct (Z.gtb_spec (rfind text period_space start (start + chunk_size)) start)
    as [Hcut | Hkeep]; [| lia].
  assert (Hrange : 0 <= start + chunk_size <= len text) by lia.
  destruct (rfind_spec text period_space start (start + chunk_size) Hstart Hrange)
    as [[Hnone _] | (_ & Hhi & _)]; [lia |].
  rewrite len_period_space in Hhi. lia.
Qed.

(** The sentence-boundary rule for a cursor that is not negative and a window
    that ends before the end of the text. If the rightmost terminator lying
    wholly inside the window is at [p], after the window start, the window
    ends at [p + 1], right after the period; if no terminator lies after the
    window start, the window keeps its [chunk_size] characters. *)
Lemma window_end_rule (start : Z) :
  0 < chunk_size ->
  0 <= start ->
  start + chunk_size < len text ->
  (forall p,
      start < p -> p + 2 <= start + chunk_size ->
      terminator_at text p ->
      (forall q, p < q -> q + 2 <= start + chunk_size -> ~ terminator_at text q) ->
      window_end text chunk_size start = p + 1
      /\ nth_error text (Z.to_nat (window_end text chunk_size start - 1)) = Some 46%N)
  /\ ((forall p, start < p -> p + 2 <= start + chunk_size -> ~ terminator_at text p) ->
      window_end text chunk_size start = start + chunk_size).
Proof.
  intros Hpos Hstart Hin.
  assert (Hsize : 0 <= start + chunk_size <= len text) by lia.
  unfold window_end.
  destruct (Z.ltb_spec (start + chunk_size) (len text)) as [_ | Hout]; [| lia].
  destruct (rfind_spec text period_space start (start + chunk_size) Hstart Hsize)
    as [[Hnone Hall] | (Hlo & Hhi & Hm & Hall)];
    rewrite len_period_space in *.
  - rewrite Hnone.
    destruct (Z.gtb_spec (-1) start) as [Hneg | _]; [lia |].
    split; [| reflexivity].
    intros p Hp1 Hp2 Hterm _. exfalso.
    apply starts_with_terminator in Hterm; [| lia].
    rewrite Hall in Hterm by lia. discriminate.
  - apply starts_with_terminator in Hm; [| lia].
    destruct (Z.gtb_spec (rfind text period_space start (start + chunk_size)) start)
      as [Hcut | Hkeep].
    + split.
      * intros p Hp1 Hp2 Hterm Hlast.
        assert (Heq : rfind text period_space start (start + chunk_size) = p).
        { destruct (Z.lt_trichotomy
                      (rfind text period_space start (start + chunk_size)) p)
            as [Hlt | [Heq | Hgt]]; [| exact Heq |].
          - apply starts_with_terminator in Hterm; [| lia].
            rewrite Hall in Hterm by lia. discriminate.
          - exfalso. apply (Hlast _ Hgt Hhi). exact Hm. }
        rewrite Heq. split; [reflexivity |].
        replace (p + 1 - 1) with p by lia. apply Hterm.
      * intros Hnone. exfalso. apply (Hnone _ Hcut Hhi). exact Hm.
    + split; [| reflexivity].
      intros p Hp1 Hp2 Hterm _. exfalso.
      apply starts_with_terminator in Hterm; [| lia].
      rewrite Hall in Hterm by lia. discriminate.
Qed.

End Window.

(** The sentence-boundary rule of lines 94-99, for a cursor that is not
    negative and a window that ends before the end of the text: the window is
    cut to end right after the period of the rightmost terminator that lies
    wholly inside it and after its start; without such a terminator it keeps
    its [chunk_size] characters. *)
Theorem window_end_sentence_rule (text : str) (chunk_size start : Z) :
  0 < chunk_size ->
  0 <= start ->
  start + chunk_size < len text ->
  (forall p,
      start < p -> p + 2 <= start + chunk_size ->
      terminator_at text p ->
      (forall q, p < q -> q + 2 <= start + chunk_size -> ~ terminator_at text q) ->
      window_end text chunk_size start = p + 1
      /\ nth_error text (Z.to_nat (window_end text chunk_size start - 1)) = Some 46%N)
  /\ ((forall p, start < p -> p + 2 <= start + chunk_size -> ~ terminator_at text p) ->
      window_end text chunk_size start = start + chunk_size).
Proof. apply window_end_rule. Qed.

(** In ["One. Two. Three four five"] the window of ten characters from 0 is
    cut after the second period, at index 9. *)
Lemma window_end_sentence_rule_witness :
  window_end (lit "One. Two. Three four five") 10 0 = 9.
Proof.
  destruct (window_end_sentence_rule (lit "One. Two. Three four five") 10 0)
    as [Hcut _]; [lia | lia | vm_compute; reflexivity |].
  destruct (Hcut 8) as [Hend _].
  - lia.
  - lia.
  - vm_compute. intuition (discriminate || reflexivity).
  - intros q Hq1 Hq2. lia.
  - exact Hend.
Defined.

End FindFacts.

(** ** The chunker *)

Module ChunkerFacts.
Import Py TextProcessor ChunkSpec.

Section Loop.
Variable text : str.
Variables chunk_size overlap : Z.

Lemma chunk_text_short fuel :
  len text <= chunk_size ->
  chunk_text text chunk_size overlap fuel = Returned [text].
Proof.
  intros Hle. unfold chunk_text.
  destruct (Z.leb_spec (len text) chunk_size) as [_ | Hgt]; [reflexivity | lia].
Qed.

Lemma chunk_text_long fuel :
  chunk_size < len text ->
  chunk_text text chunk_size overlap fuel
  = chunk_loop text chunk_size overlap fuel (0, []).
Proof.
  intros Hlt. unfold chunk_text.
  destruct (Z.leb_spec (len text) chunk_size) as [Hle | _]; [lia | reflexivity].
Qed.

Lemma chunk_loop_more fuel start chunks :
  start < len text ->
  chunk_loop text chunk_size overlap (S fuel) (start, chunks)
  = chunk_loop text chunk_size overlap fuel
      (chunk_step text chunk_size overlap (start, chunks)).
Proof.
  intros Hlt. cbn [chunk_loop fst].
  destruct (Z.ltb_spec start (len text)) as [_ | Hge]; [reflexivity | lia].
Qed.

Lemma chunk_loop_done fuel start chunks :
  len text <= start ->
  chunk_loop text chunk_size overlap (S fuel) (start, chunks) = Returned chunks.
Proof.
  intros Hge. cbn [chunk_loop fst snd].
  destruct (Z.ltb_spec start (len text)) as [Hlt | _]; [lia | reflexivity].
Qed.

(** The loop has no [raise]. *)
Lemma chunk_loop_never_raises fuel st e :
  chunk_loop text chunk_size overlap fuel st <> Raised e.
Proof.
  revert st. induction fuel as [| fuel IH]; intros st; cbn [chunk_loop].
  - discriminate.
  - destruct (fst st <? len text); [apply IH | discriminate].
Qed.

Lemma chunk_text_never_raises fuel e :
  chunk_text text chunk_size overlap fuel <> Raised e.
Proof.
  unfold chunk_text. destruct (len text <=? chunk_size).
  - discriminate.
  - apply chunk_loop_never_raises.
Qed.

(** A cursor inside the text that the body maps to itself is never left. *)
Lemma chunk_loop_stuck start :
  start < len text ->
  next_start text overlap (window_end text chunk_size start) = start ->
  forall fuel chunks,
    chunk_loop text chunk_size overlap fuel (start, chunks) = OutOfFuel.
Proof.
  intros Hlt Hfix fuel. induction fuel as [| fuel IH]; intros chunks.
  - reflexivity.
  - rewrite chunk_loop_more by exact Hlt.
    unfold chunk_step. rewrite Hfix. apply IH.
Qed.

(** The windows and the chunks come from the same iteration. *)
Lemma window_loop_chunks fuel start ws :
  match window_loop text chunk_size overlap fuel (start, ws) with
  | Returned ws' =>
      chunk_loop text chunk_size overlap fuel
        (start, map (fun w => slice text (fst w) (snd w)) ws)
      = Returned (map (fun w => slice text (fst w) (snd w)) ws')
  | Raised _ => False
  | OutOfFuel =>
      chunk_loop text chunk_size overlap fuel
        (start, map (fun w => slice text (fst w) (snd w)) ws)
      = OutOfFuel
  end.
Proof.
  revert start ws. induction fuel as [| fuel IH]; intros start ws.
  - reflexivity.
  - cbn [window_loop chunk_loop fst snd].
    destruct (start <? len text).
    + specialize (IH (next_start text overlap (window_end text chunk_size start))
                     (ws ++ [(start, window_end text chunk_size start)])).
      unfold window_step, chunk_step.
      rewrite map_app in IH. exact IH.
    + reflexivity.
Qed.

Lemma diverges_stuck start :
  start < len text ->
  advance text chunk_size overlap start = start ->
  diverges_from text chunk_size overlap start.
Proof. intros Hlt Hfix fuel chunks. now apply chunk_loop_stuck. Qed.

Lemma diverges_step start :
  start < len text ->
  diverges_from text chunk_size overlap (advance text chunk_size overlap start) ->
  diverges_from text chunk_size overlap start.
Proof.
  intros Hlt Hnext [| fuel] chunks; [reflexivity |].
  rewrite chunk_loop_more by exact Hlt. apply Hnext.
Qed.

(** [chunk_windows] returns the windows of the chunks [chunk_text] returns,
    and runs out of fuel when [chunk_text] does. *)
Lemma chunk_windows_chunks fuel :
  match chunk_windows text chunk_size overlap fuel with
  | Returned ws =>
      chunk_text text chunk_size overlap fuel = Returned (map (cut text) ws)
  | Raised _ => False
  | OutOfFuel => chunk_text text chunk_size overlap fuel = OutOfFuel
  end.
Proof.
  unfold chunk_windows, chunk_text.
  destruct (len text <=? chunk_size).
  - cbn [map]. unfold cut. cbn [fst snd].
    rewrite SliceFacts.slice_whole. reflexivity.
  - apply (window_loop_chunks fuel 0 []).
Qed.

End Loop.

(** A text of at most [chunk_size] characters is returned whole, as the one
    chunk, whatever the overlap. *)
Theorem chunk_text_single_chunk (text : str) (chunk_size overlap : Z) (fuel : nat) :
  len text <= chunk_size ->
  chunk_text text chunk_size overlap fuel = Returned [text].
Proof. apply chunk_text_short. Qed.

Lemma chunk_text_single_chunk_witness :
  chunk_text Inputs.tea_text 10000 200 0 = Returned [Inputs.tea_text].
Proof. apply chunk_text_single_chunk. vm_compute. discriminate. Defined.

(** With [chunk_size <= overlap] the cursor never comes within [chunk_size]
    characters of the end of the text: a window that keeps its size sets it
    back by [overlap - chunk_size], and a window cut at a sentence end leaves
    it before the last character. *)
Lemma advance_degenerate (text : str) (chunk_size overlap start : Z) :
  chunk_size <= overlap -> 0 <= overlap -> 0 < len text ->
  start < len text /\ start + chunk_size < len text ->
  advance text chunk_size overlap start < len text
  /\ advance text chunk_size overlap start + chunk_size < len text.
Proof.
  intros Hdeg Hover Hpos [Hin Hroom]. unfold advance, next_start, window_end.
  destruct (Z.ltb_spec (start + chunk_size) (len text)) as [_ | Hout]; [| lia].
  destruct (FindFacts.rfind_range text period_space start (start + chunk_size))
    as [Hnone | [Hlo Hhi]].
  - rewrite Hnone. destruct (Z.gtb_spec (-1) start) as [Hneg | Hkeep].
    + change (-1 + 1) with 0. destruct (Z.ltb_spec 0 (len text)); lia.
    + destruct (Z.ltb_spec (start + chunk_size) (len text)); lia.
  - rewrite FindFacts.len_period_space in Hhi.
    destruct (Z.gtb_spec (rfind text period_space start (start + chunk_size)) start)
      as [Hcut | Hkeep].
    + destruct (Z.ltb_spec
                  (rfind text period_space start (start + chunk_size) + 1)
                  (len text)); lia.
    + destruct (Z.ltb_spec (start + chunk_size) (len text)); lia.
Qed.

Lemma chunk_loop_degenerate (text : str) (chunk_size overlap : Z) :
  chunk_size <= overlap -> 0 <= overlap -> 0 < len text ->
  forall fuel start chunks,
    start < len text /\ start + chunk_size < len text ->
    chunk_loop text chunk_size overlap fuel (start, chunks) = OutOfFuel.
Proof.
  intros Hdeg Hover Hpos fuel.
  induction fuel as [| fuel IH]; intros start chunks Hinv; [reflexivity |].
  rewrite chunk_loop_more by apply Hinv.
  unfold chunk_step. apply IH.
  now apply (advance_degenerate text chunk_size overlap start).
Qed.

(** C1: a call with [chunk_size <= overlap] is not rejected, and it does not
    return either. For every text that is not empty and longer than
    [chunk_size], and every [overlap >= 0] with [chunk_size <= overlap], the
    loop runs for ever: no fuel gives a result, neither chunks nor an error.
    (A text of at most [chunk_size] characters is returned as one chunk before
    the loop.) *)
Theorem chunk_text_degenerate_never_returns
    (text : str) (chunk_size overlap : Z) :
  chunk_size <= overlap -> 0 <= overlap ->
  text <> [] -> chunk_size < len text ->
  forall fuel, chunk_text text chunk_size overlap fuel = OutOfFuel.
Proof.
  intros Hdeg Hover Hne Hlong fuel.
  assert (Hpos : 0 < len text)
    by (destruct text; [now destruct Hne | unfold len; cbn [List.length]; lia]).
  rewrite chunk_text_long by exact Hlong.
  apply chunk_loop_degenerate; [exact Hdeg | exact Hover | exact Hpos | lia].
Qed.

(** The spec's own call, [chunk(text, 10, 10)], on a text of twelve
    characters. *)
Lemma chunk_text_degenerate_never_returns_witness :
  len (lit "abcdefghijkl") = 12
  /\ forall fuel, chunk_text (lit "abcdefghijkl") 10 10 fuel = OutOfFuel.
Proof.
  split; [reflexivity |].
  apply (chunk_text_degenerate_never_returns (lit "abcdefghijkl") 10 10);
    [lia | lia | discriminate | vm_compute; reflexivity].
Defined.

(** The example run at the end of [main.py] calls
    [chunk_text(sample_text, chunk_size=200)], so with the default
    [overlap = 200]: the cursor goes 0, -17, -200, -200, ... and the call does
    not return. *)
Lemma main_example_diverges fuel :
  chunk_text Inputs.sample_text 200 200 fuel = OutOfFuel.
Proof.
  rewrite chunk_text_long by (vm_compute; reflexivity).
  apply diverges_step; [vm_compute; reflexivity |].
  replace (advance Inputs.sample_text 200 200 0) with (-17)
    by (vm_compute; reflexivity).
  apply diverges_step; [vm_compute; reflexivity |].
  replace (advance Inputs.sample_text 200 200 (-17)) with (-200)
    by (vm_compute; reflexivity).
  apply diverges_stuck; vm_compute; reflexivity.
Qed.

(** C2: with the well-formed pair [chunk_size = 10], [overlap = 2] the first
    window of ["x. yyyyyyyyyyyyyyyy"] is cut back to ["x."], the cursor returns
    to 0, and no amount of fuel makes the call return. *)
Theorem chunk_text_stalls_on_early_sentence :
  0 <= 2 < 10
  /\ advance Inputs.stalled_text 10 2 0 = 0
  /\ forall fuel, chunk_text Inputs.stalled_text 10 2 fuel = OutOfFuel.
Proof.
  split; [lia |]. split; [vm_compute; reflexivity |].
  intros fuel. rewrite chunk_text_long by (vm_compute; reflexivity).
  apply diverges_stuck; vm_compute; reflexivity.
Qed.

(** The same with the default parameters, [chunk_size = 10000] and
    [overlap = 200], on ["Hi. "] followed by ten thousand times ["x"]: the
    first window is cut back to ["Hi."], the cursor goes 0, -197, -200, -200,
    ... and the call does not return. *)
Lemma default_parameters_diverge fuel :
  chunk_text Inputs.long_text 10000 200 fuel = OutOfFuel.
Proof.
  rewrite chunk_text_long by (vm_compute; reflexivity).
  apply diverges_step; [vm_compute; reflexivity |].
  replace (advance Inputs.long_text 10000 200 0) with (-197)
    by (vm_compute; reflexivity).
  apply diverges_step; [vm_compute; reflexivity |].
  replace (advance Inputs.long_text 10000 200 (-197)) with (-200)
    by (vm_compute; reflexivity).
  apply diverges_stuck; vm_compute; reflexivity.
Qed.

(** Nothing taken off the front of chunks adds a character they lack. *)
Lemma covers_incl text chunks :
  covers text chunks -> forall c, In c text -> exists ch, In ch chunks /\ In c ch.
Proof.
  intros (cuts & _ & Hcat) c Hc. subst text.
  apply in_concat in Hc. destruct Hc as (piece & Hpiece & Hin).
  apply in_map_iff in Hpiece. destruct Hpiece as ([k ch] & Hk & Hcomb).
  cbn [fst snd] in Hk. subst piece.
  exists ch. split.
  - eapply in_combine_r; eassumption.
  - clear -Hin. revert ch Hin. induction k as [| k IH]; intros ch Hin.
    + exact Hin.
    + destruct ch as [| a ch]; [destruct Hin |]. right. apply IH. exact Hin.
Qed.

(** C3: with [chunk_size = 10], [overlap = 3] the call on
    ["a. bcdefghijklmnop"] returns ["a."], [""], ["efghijklmn"], ["lmnop"]. The
    characters [" bcd"] are in no chunk, so the chunks do not cover the text,
    and the second chunk, whose window was not moved to a sentence end, shares
    nothing with the third. *)
Theorem chunk_text_loses_text :
  0 <= 3 < 10
  /\ chunk_text Inputs.lost_text 10 3 5
     = Returned [lit "a."; []; lit "efghijklmn"; lit "lmnop"]
  /\ ~ covers Inputs.lost_text [lit "a."; []; lit "efghijklmn"; lit "lmnop"]
  /\ remainders 3 [lit "a."; []; lit "efghijklmn"; lit "lmnop"] <> Inputs.lost_text
  /\ window_end Inputs.lost_text 10 (cursor_at Inputs.lost_text 10 3 1)
     = cursor_at Inputs.lost_text 10 3 1 + 10
  /\ ~ shares 3 [] (lit "efghijklmn").
Proof.
  split; [lia |]. split; [vm_compute; reflexivity |]. split; [| split; [| split]].
  - intros Hcov.
    destruct (covers_incl _ _ Hcov 32%N) as (ch & Hch & Hin).
    + vm_compute. tauto.
    + vm_compute in Hch, Hin.
      repeat (destruct Hch as [<- | Hch]; [vm_compute in Hin; intuition discriminate |]).
      exact Hch.
  - vm_compute. discriminate.
  - vm_compute. reflexivity.
  - intros (H & _). cbn in H. lia.
Qed.

(** C6: on the same call the windows are (0, 2), (-1, 9), (6, 16), (13, 23):
    the start offsets go down from 0 to -1, and the second window, taken as a
    slice, is the empty string at the end of the text. *)
Theorem chunk_windows_not_monotone :
  0 <= 3 < 10
  /\ chunk_windows Inputs.lost_text 10 3 5
     = Returned [(0, 2); (-1, 9); (6, 16); (13, 23)]
  /\ chunk_text Inputs.lost_text 10 3 5
     = Returned (map (cut Inputs.lost_text) [(0, 2); (-1, 9); (6, 16); (13, 23)])
  /\ nondecreasing (map fst [(0, 2); (-1, 9); (6, 16); (13, 23)]) = false
  /\ slice Inputs.lost_text (-1) 9 = [].
Proof.
  split; [lia |]. repeat split; vm_compute; reflexivity.
Qed.

(** C8: in the second iteration on ["ab. cdefghijklmnop"] with
    [chunk_size = 10], [overlap = 5] the cursor is -2 and the window does not
    reach the end of the text. [rfind] finds no terminator and answers -1, which
    is above the cursor, so the window is cut back to end at 0 instead of
    keeping the hard boundary 8. *)
Theorem window_end_negative_cursor :
  0 <= 5 < 10
  /\ cursor_at Inputs.negative_text 10 5 1 = -2
  /\ -2 + 10 < len Inputs.negative_text
  /\ rfind Inputs.negative_text period_space (-2) (-2 + 10) = -1
  /\ window_end Inputs.negative_text 10 (-2) = 0
  /\ slice Inputs.negative_text (-2) 0 = [].
Proof.
  split; [lia |]. repeat split; vm_compute; reflexivity.
Qed.

End ChunkerFacts.

(** ** When the cursor does not move *)

Module StallFacts.
Import Py TextProcessor ChunkSpec SliceFacts FindFacts ChunkerFacts.

Section Stall.
Variable text : str.
Variables chunk_size overlap : Z.



End Stall.


End StallFacts.

(** ** Runs in which the cursor moves forward *)

Module RunFacts.
Import Py TextProcessor ChunkSpec SliceFacts FindFacts.

Lemma advancingb_sound (text : str) (chunk_size overlap : Z) :
  advancingb text chunk_size overlap = true -> advancing text chunk_size overlap.
Proof.
  unfold advancingb, advancing. intros Hall start _ Hstart Hin.
  rewrite forallb_forall in Hall.
  specialize (Hall (Z.to_nat start)).
  rewrite Z2Nat.id in Hall by lia.
  assert (Hmem : In (Z.to_nat start) (seq 0 (List.length text))).
  { apply in_seq. unfold len in Hstart. lia. }
  apply Hall in Hmem. apply orb_true_iff in Hmem.
  destruct Hmem as [Hle | Hlt]; [apply Z.leb_le in Hle; lia | now apply Z.ltb_lt].
Qed.

(** Without overlap the cursor always moves forward. *)
Lemma advancing_no_overlap (text : str) (chunk_size : Z) :
  0 < chunk_size -> advancing text chunk_size 0.
Proof.
  intros Hsize start _ Hstart _.
  pose proof (window_end_bounds text chunk_size start) as Hb. lia.
Qed.

(** So it does in a text without a sentence terminator. *)
Lemma advancing_no_terminator (text : str) (chunk_size overlap : Z) :
  0 <= overlap < chunk_size ->
  (forall p, ~ terminator_at text p) ->
  advancing text chunk_size overlap.
Proof.
  intros Hov Hnone start _ Hstart Hin.
  destruct (Z.lt_ge_cases (start + chunk_size) (len text)) as [Hlt | Hge].
  - destruct (window_end_rule text chunk_size start) as [_ Hkeep];
      [lia | lia | exact Hlt |].
    rewrite Hkeep; [lia |]. intros p _ _. apply Hnone.
  - rewrite window_end_last by exact Hge. lia.
Qed.

Section Run.
Variable text : str.
Variables chunk_size overlap : Z.
Hypothesis Hparams : 0 <= overlap < chunk_size.
Hypothesis Hadv : advancing text chunk_size overlap.

Lemma window_loop_more fuel start ws :
  start < len text ->
  window_loop text chunk_size overlap (S fuel) (start, ws)
  = window_loop text chunk_size overlap fuel
      (next_start text overlap (window_end text chunk_size start),
       ws ++ [(start, window_end text chunk_size start)]).
Proof.
  intros Hlt. cbn [window_loop fst].
  destruct (Z.ltb_spec start (len text)) as [_ | Hge]; [reflexivity | lia].
Qed.

Lemma window_loop_done fuel start ws :
  len text <= start ->
  window_loop text chunk_size overlap (S fuel) (start, ws) = Returned ws.
Proof.
  intros Hge. cbn [window_loop fst snd].
  destruct (Z.ltb_spec start (len text)) as [Hlt | _]; [lia | reflexivity].
Qed.

Lemma reachable_next start :
  reachable text chunk_size overlap start ->
  reachable text chunk_size overlap
    (next_start text overlap (window_end text chunk_size start)).
Proof. intros [k Hk]. exists (S k). cbn [cursor_at]. rewrite Hk. reflexivity. Qed.

(** Entered at a cursor of the run that is not negative, the loop returns
    within as many iterations as there are characters left, and its windows
    are chained. *)
Lemma window_loop_chained (k : nat) :
  forall start ws0,
    reachable text chunk_size overlap start ->
    0 <= start ->
    (start < len text -> start + overlap < len text) ->
    len text - start <= Z.of_nat k ->
    exists ws,
      window_loop text chunk_size overlap (S k) (start, ws0) = Returned (ws0 ++ ws)
      /\ chained chunk_size overlap (len text) start ws.
Proof.
  induction k as [| k IH]; intros start ws0 Hreach Hstart Hroom Hfuel.
  - exists []. rewrite app_nil_r. split; [apply window_loop_done; lia | cbn; lia].
  - destruct (Z.lt_ge_cases start (len text)) as [Hlt | Hge].
    2:{ exists []. rewrite app_nil_r.
        split; [apply window_loop_done; lia | cbn; lia]. }
    rewrite window_loop_more by exact Hlt.
    pose proof (window_end_bounds text chunk_size start Hstart ltac:(lia)) as Hb.
    pose proof (reachable_next start Hreach) as Hnext.
    set (e := window_end text chunk_size start) in *.
    unfold next_start in *.
    destruct (Z.ltb_spec e (len text)) as [Hin | Hout].
    + assert (Hmove : start < e - overlap)
        by (apply Hadv; [exact Hreach | lia | exact Hin]).
      destruct (IH (e - overlap) (ws0 ++ [(start, e)])) as (ws & Hrun & Hch);
        [exact Hnext | lia | lia | lia |].
      exists ((start, e) :: ws). split.
      * rewrite Hrun, <- app_assoc. reflexivity.
      * cbn [chained]. split; [reflexivity |]. split; [lia |]. split; [lia |].
        destruct (Z.ltb_spec e (len text)); [exact Hch | lia].
    + destruct (IH e (ws0 ++ [(start, e)])) as (ws & Hrun & Hch);
        [exact Hnext | lia | lia | lia |].
      exists ((start, e) :: ws). split.
      * rewrite Hrun, <- app_assoc. reflexivity.
      * cbn [chained]. split; [reflexivity |]. split; [lia |].
        split; [specialize (Hroom Hlt); lia |].
        destruct (Z.ltb_spec e (len text)); [lia | exact Hch].
Qed.

(** A text longer than [chunk_size]: the call returns, within one iteration
    per character, the chunks of a chain of windows from 0. *)
Lemma chunk_text_chained :
  chunk_size < len text ->
  exists ws,
    chunk_windows text chunk_size overlap (S (List.length text)) = Returned ws
    /\ chunk_text text chunk_size overlap (S (List.length text))
       = Returned (map (cut text) ws)
    /\ chained chunk_size overlap (len text) 0 ws.
Proof.
  intros Hlong.
  destruct (window_loop_chained (List.length text) 0 []) as (ws & Hrun & Hch);
    [exists 0%nat; reflexivity | lia | lia | unfold len; lia |].
  exists ws. cbn [app] in Hrun.
  assert (Hw : chunk_windows text chunk_size overlap (S (List.length text))
               = Returned ws).
  { unfold chunk_windows.
    destruct (Z.leb_spec (len text) chunk_size); [lia | exact Hrun]. }
  split; [exact Hw | split; [| exact Hch]].
  rewrite ChunkerFacts.chunk_text_long by exact Hlong.
  pose proof (ChunkerFacts.window_loop_chunks text chunk_size overlap
                (S (List.length text)) 0 []) as Hsame.
  rewrite Hrun in Hsame. exact Hsame.
Qed.

End Run.

End RunFacts.

(** ** What chained windows give *)

Module ChainFacts.
Import Py TextProcessor ChunkSpec SliceFacts.

Lemma cut_length (text : str) (s e : Z) :
  0 <= s -> s <= e -> e <= len text -> len (cut text (s, e)) = e - s.
Proof.
  intros Hs Hse He. unfold cut, len in *. cbn [fst snd].
  rewrite slice_nonneg by lia.
  rewrite length_firstn, length_skipn. lia.
Qed.

Lemma cut_length_le (text : str) (s e : Z) :
  0 <= s -> s <= e -> len (cut text (s, e)) <= e - s.
Proof.
  intros Hs Hse. unfold cut, len. cbn [fst snd].
  rewrite slice_nonneg by lia.
  rewrite length_firstn. lia.
Qed.

(** Taking the overlap off every chunk but the first is one way to cover. *)
Lemma remainders_covers (overlap : Z) (chunks : list str) :
  covers (remainders overlap chunks) chunks.
Proof.
  destruct chunks as [| c rest].
  - exists []. split; reflexivity.
  - exists (0%nat :: repeat (Z.to_nat overlap) (List.length rest)).
    split; [cbn [List.length]; rewrite repeat_length; reflexivity |].
    cbn [combine map concat fst snd skipn remainders]. f_equal.
    induction rest as [| d rest IH]; [reflexivity |].
    cbn [List.length repeat combine map concat fst snd]. f_equal. exact IH.
Qed.

Section Chain.
Variable text : str.
Variables chunk_size overlap : Z.
Hypothesis Hov : 0 <= overlap.

(** What the chunks after the first add, each without its first [overlap]
    characters: the text from [start + overlap] on. *)
Lemma chained_rest (ws : list (Z * Z)) :
  forall start,
    0 <= start ->
    chained chunk_size overlap (len text) start ws ->
    concat (map (fun w => skipn (Z.to_nat overlap) (cut text w)) ws)
    = skipn (Z.to_nat (start + overlap)) text.
Proof.
  induction ws as [| [s e] ws IH]; intros start Hstart Hch; cbn [chained] in Hch.
  - cbn [map concat]. symmetry. apply skipn_all2. unfold len in Hch. lia.
  - destruct Hch as (-> & Hs & He & Hch).
    cbn [map concat]. unfold cut at 1. cbn [fst snd].
    rewrite slice_nonneg by lia.
    rewrite skipn_firstn_comm, skipn_skipn.
    replace (Z.to_nat overlap + Z.to_nat start)%nat
      with (Z.to_nat (start + overlap)) by lia.
    destruct (Z.ltb_spec e (len text)) as [Hin | Hout].
    + rewrite (IH (e - overlap)) by (try exact Hch; lia).
      replace (Z.to_nat (e - overlap + overlap))
        with ((Z.to_nat (e - start) - Z.to_nat overlap)
              + Z.to_nat (start + overlap))%nat by lia.
      rewrite <- skipn_skipn. apply firstn_skipn.
    + rewrite (IH e) by (try exact Hch; lia).
      rewrite (skipn_all2 (n := Z.to_nat (e + overlap))) by (unfold len in Hout; lia).
      rewrite app_nil_r. apply firstn_all2.
      rewrite length_skipn. unfold len in Hout. lia.
Qed.

(** The chunks of a chain from 0, each after the first without its first
    [overlap] characters, make up the text. *)
Lemma chained_remainders (ws : list (Z * Z)) :
  0 < len text ->
  chained chunk_size overlap (len text) 0 ws ->
  remainders overlap (map (cut text) ws) = text.
Proof.
  intros Hne Hch. destruct ws as [| [s e] ws]; cbn [chained] in Hch; [lia |].
  destruct Hch as (-> & Hs & He & Hch).
  cbn [map remainders]. rewrite map_map.
  unfold cut at 1. cbn [fst snd]. rewrite slice_nonneg by lia.
  cbn [Z.to_nat skipn]. rewrite Z.sub_0_r.
  destruct (Z.ltb_spec e (len text)) as [Hin | Hout].
  - rewrite (chained_rest ws (e - overlap)) by (try exact Hch; lia).
    replace (e - overlap + overlap) with e by lia. apply firstn_skipn.
  - rewrite (chained_rest ws e) by (try exact Hch; lia).
    rewrite (skipn_all2 (n := Z.to_nat (e + overlap))) by (unfold len in Hout; lia).
    rewrite app_nil_r. apply firstn_all2. unfold len in Hout. lia.
Qed.

(** Neighbouring chunks of a chain share exactly [overlap] characters. *)
Lemma chained_shares (ws : list (Z * Z)) :
  forall start,
    0 <= start ->
    chained chunk_size overlap (len text) start ws ->
    all_consecutive (shares (Z.to_nat overlap)) (map (cut text) ws).
Proof.
  induction ws as [| [s e] ws IH]; intros start Hstart Hch; [exact I |].
  cbn [chained] in Hch. destruct Hch as (-> & Hs & He & Hch).
  destruct ws as [| [s2 e2] ws]; [exact I |].
  cbn [map all_consecutive]. split.
  - cbn [chained] in Hch. destruct Hch as (Hs2 & Hs2' & He2 & _).
    destruct (Z.ltb_spec e (len text)) as [Hin | Hout]; [| lia].
    subst s2. unfold shares, cut. cbn [fst snd].
    rewrite !slice_nonneg by lia.
    rewrite !length_firstn, !length_skipn. unfold len in *.
    split; [lia | split; [lia |]].
    rewrite skipn_firstn_comm, skipn_skipn, firstn_firstn.
    replace (Z.to_nat (e - start)
             - (Nat.min (Z.to_nat (e - start)) (List.length text - Z.to_nat start)
                - Z.to_nat overlap))%nat
      with (Z.to_nat overlap) by lia.
    replace (Nat.min (Z.to_nat (e - start)) (List.length text - Z.to_nat start)
             - Z.to_nat overlap + Z.to_nat start)%nat
      with (Z.to_nat (e - overlap)) by lia.
    replace (Nat.min (Z.to_nat overlap) (Z.to_nat (e2 - (e - overlap))))
      with (Z.to_nat overlap) by lia.
    reflexivity.
  - apply (IH (if e <? len text then e - overlap else e)); [| exact Hch].
    destruct (Z.ltb_spec e (len text)); lia.
Qed.

(** In a chain the start offsets and the end offsets go up. *)
Lemma chained_monotone (ws : list (Z * Z)) :
  forall start,
    chained chunk_size overlap (len text) start ws ->
    nondecreasing (map fst ws) = true /\ nondecreasing (map snd ws) = true.
Proof.
  induction ws as [| [s e] ws IH]; intros start Hch; [split; reflexivity |].
  cbn [chained] in Hch. destruct Hch as (-> & Hs & He & Hch).
  destruct (IH _ Hch) as [IHs IHe].
  destruct ws as [| [s2 e2] ws]; [split; reflexivity |].
  cbn [chained] in Hch. destruct Hch as (Hs2 & Hs2' & He2 & _).
  cbn [map fst snd nondecreasing] in *.
  rewrite IHs, IHe, !andb_true_r.
  destruct (Z.ltb_spec e (len text)); split; apply Z.leb_le; lia.
Qed.

(** No chunk of a chain is empty or longer than [chunk_size]. *)
Lemma chained_sizes (ws : list (Z * Z)) :
  forall start,
    chained chunk_size overlap (len text) start ws ->
    Forall (fun c => 0 < len c <= chunk_size) (map (cut text) ws).
Proof.
  induction ws as [| [s e] ws IH]; intros start Hch; [constructor |].
  cbn [chained] in Hch. destruct Hch as (-> & Hs & He & Hch).
  cbn [map]. constructor; [| exact (IH _ Hch)].
  pose proof (cut_length_le text start e ltac:(lia) ltac:(lia)) as Hle.
  split; [| lia].
  unfold cut, len in *. cbn [fst snd]. rewrite slice_nonneg by lia.
  rewrite length_firstn, length_skipn. lia.
Qed.

End Chain.

End ChainFacts.

(** ** The chunker when the cursor moves forward *)

Module Totality.
Import Py TextProcessor ChunkSpec SliceFacts RunFacts ChainFacts.

(** More fuel does not change what the loop returned. *)
Lemma chunk_loop_fuel (text : str) (chunk_size overlap : Z) (fuel extra : nat) :
  forall st chunks,
    chunk_loop text chunk_size overlap fuel st = Returned chunks ->
    chunk_loop text chunk_size overlap (fuel + extra) st = Returned chunks.
Proof.
  induction fuel as [| fuel IH]; intros st chunks Hrun; [discriminate |].
  cbn [chunk_loop Nat.add] in *.
  destruct (fst st <? len text); [apply IH; exact Hrun | exact Hrun].
Qed.

(** A run whose cursor moves forward at every step returns within one
    iteration per character. Its windows start at 0 and have offsets that go
    up; each chunk after the first without its first [overlap] characters, put
    one after another, give the text. *)
Lemma chunk_text_run (text : str) (chunk_size overlap : Z) :
  0 <= overlap < chunk_size ->
  advancing text chunk_size overlap ->
  exists ws,
    chunk_windows text chunk_size overlap (S (List.length text)) = Returned ws
    /\ chunk_text text chunk_size overlap (S (List.length text))
       = Returned (map (cut text) ws)
    /\ remainders overlap (map (cut text) ws) = text
    /\ covers text (map (cut text) ws)
    /\ all_consecutive (shares (Z.to_nat overlap)) (map (cut text) ws)
    /\ nondecreasing (map fst ws) = true
    /\ nondecreasing (map snd ws) = true
    /\ Forall (fun c => len c <= chunk_size) (map (cut text) ws).
Proof.
  intros Hparams Hadv.
  destruct (Z.le_gt_cases (len text) chunk_size) as [Hshort | Hlong].
  - exists [(0, len text)].
    assert (Hcut : map (cut text) [(0, len text)] = [text]).
    { cbn [map]. unfold cut. cbn [fst snd]. rewrite slice_whole. reflexivity. }
    rewrite Hcut.
    split; [| split; [| split; [| split; [| split; [| split; [| split]]]]]].
    + unfold chunk_windows.
      destruct (Z.leb_spec (len text) chunk_size); [reflexivity | lia].
    + now apply ChunkerFacts.chunk_text_short.
    + cbn [remainders map concat]. apply app_nil_r.
    + rewrite <- (app_nil_r text) at 1.
      apply (remainders_covers overlap [text]).
    + exact I.
    + reflexivity.
    + reflexivity.
    + constructor; [exact Hshort | constructor].
  - destruct (chunk_text_chained text chunk_size overlap Hparams Hadv)
      as (ws & Hw & Hc & Hch); [lia |].
    assert (Hrem : remainders overlap (map (cut text) ws) = text).
    { apply (chained_remainders text chunk_size overlap); [lia | lia | exact Hch]. }
    exists ws.
    split; [exact Hw | split; [exact Hc | split; [exact Hrem |]]].
    split; [| split; [| split; [| split]]].
    + rewrite <- Hrem at 1. apply remainders_covers.
    + apply (chained_shares text chunk_size overlap ltac:(lia) ws 0); [lia | exact Hch].
    + eapply chained_monotone; [| exact Hch]; lia.
    + eapply chained_monotone; [| exact Hch]; lia.
    + eapply List.Forall_impl; [| eapply chained_sizes; [| exact Hch]; lia].
      cbn beta. intros c Hc'. lia.
Qed.

(** With well-formed parameters, a call whose cursor moves forward at every
    step returns; its chunks cover the text, neighbours share exactly
    [overlap] characters, the window offsets go up, and no chunk is longer
    than [chunk_size]. *)
Theorem chunk_text_when_advancing (text : str) (chunk_size overlap : Z) :
  0 <= overlap < chunk_size ->
  advancing text chunk_size overlap ->
  exists ws,
    chunk_windows text chunk_size overlap (S (List.length text)) = Returned ws
    /\ chunk_text text chunk_size overlap (S (List.length text))
       = Returned (map (cut text) ws)
    /\ remainders overlap (map (cut text) ws) = text
    /\ covers text (map (cut text) ws)
    /\ all_consecutive (shares (Z.to_nat overlap)) (map (cut text) ws)
    /\ nondecreasing (map fst ws) = true
    /\ nondecreasing (map snd ws) = true
    /\ Forall (fun c => len c <= chunk_size) (map (cut text) ws).
Proof. apply chunk_text_run. Qed.

(** The four sentences in windows of twenty characters with an overlap of
    four. *)
Lemma chunk_text_when_advancing_witness :
  chunk_text Inputs.tea_text 20 4 49
  = Returned [lit "It rains."; lit "ins. We stay in."; lit " in. Tea is made.";
              lit "ade. All is well."].
Proof.
  destruct (chunk_text_when_advancing Inputs.tea_text 20 4) as (ws & _ & Hc & _).
  - lia.
  - apply advancingb_sound. vm_compute. reflexivity.
  - vm_compute. reflexivity.
Defined.

(** Without overlap the call is total and cuts the text into pieces: the
    chunks put one after another are the text. *)
Theorem chunk_text_no_overlap (text : str) (chunk_size : Z) :
  0 < chunk_size ->
  exists chunks,
    chunk_text text chunk_size 0 (S (List.length text)) = Returned chunks
    /\ concat chunks = text
    /\ Forall (fun c => len c <= chunk_size) chunks.
Proof.
  intros Hsize.
  destruct (chunk_text_run text chunk_size 0) as
    (ws & _ & Hc & Hrem & _ & _ & _ & _ & Hlen);
    [lia | now apply advancing_no_overlap |].
  exists (map (cut text) ws). split; [exact Hc | split; [| exact Hlen]].
  rewrite <- Hrem at 2.
  destruct (map (cut text) ws) as [| c rest]; [reflexivity |].
  cbn [concat remainders Z.to_nat]. f_equal. f_equal.
  symmetry. apply map_id.
Qed.

Lemma chunk_text_no_overlap_witness :
  exists chunks,
    chunk_text Inputs.tea_text 16 0 49 = Returned chunks
    /\ concat chunks = Inputs.tea_text
    /\ Forall (fun c => len c <= 16) chunks.
Proof. apply (chunk_text_no_overlap Inputs.tea_text 16). lia. Defined.

End Totality.

(** ** [clean_text] *)

Module CleanFacts.
Import Py TextProcessor Words.

Lemma word_rev (w : str) : word w -> word (rev w).
Proof.
  intros [Hne Hall]. split.
  - intros Hnil. apply Hne. rewrite <- (rev_involutive w), Hnil. reflexivity.
  - apply List.Forall_forall. intros c Hc. apply in_rev in Hc.
    rewrite List.Forall_forall in Hall. now apply Hall.
Qed.

Lemma split_go_words (s cur : str) :
  Forall (fun c => isspace c = false) cur ->
  Forall word (split_go cur s).
Proof.
  revert cur. induction s as [| c s IH]; intros cur Hcur; cbn [split_go].
  - destruct cur as [| a cur]; [constructor |].
    constructor; [| constructor]. apply word_rev. split; [discriminate | exact Hcur].
  - destruct (isspace c) eqn:Hc.
    + destruct cur as [| a cur]; [apply IH; constructor |].
      constructor; [| apply IH; constructor].
      apply word_rev. split; [discriminate | exact Hcur].
    + apply IH. constructor; assumption.
Qed.

Lemma split_words (s : str) : Forall word (split s).
Proof. apply split_go_words. constructor. Qed.

Lemma split_go_concat (s cur : str) :
  concat (split_go cur s) = rev cur ++ List.filter nonspace s.
Proof.
  revert cur. induction s as [| c s IH]; intros cur; cbn [split_go List.filter].
  - destruct cur; cbn [concat]; rewrite ?app_nil_r; reflexivity.
  - unfold nonspace at 1. destruct (isspace c); cbn [negb].
    + destruct cur as [| a cur]; cbn [concat]; rewrite IH; reflexivity.
    + rewrite IH. cbn [rev]. rewrite <- app_assoc. reflexivity.
Qed.

(** The words of a text are its characters other than whitespace, in order. *)
Lemma split_concat (s : str) : concat (split s) = List.filter nonspace s.
Proof. apply split_go_concat. Qed.

Lemma split_go_app_word (w s cur : str) :
  Forall (fun c => isspace c = false) w ->
  split_go cur (w ++ s) = split_go (rev w ++ cur) s.
Proof.
  revert cur. induction w as [| a w IH]; intros cur Hw; [reflexivity |].
  apply List.Forall_cons_iff in Hw. destruct Hw as [Ha Hw].
  cbn [app split_go rev]. rewrite Ha, IH by exact Hw.
  rewrite <- app_assoc. reflexivity.
Qed.

Lemma join_cons (sep w : str) (ws : list str) :
  ws <> [] -> join sep (w :: ws) = w ++ sep ++ join sep ws.
Proof. destruct ws; [congruence | reflexivity]. Qed.

Lemma join_snoc (sep w : str) (ws : list str) :
  ws <> [] -> join sep (ws ++ [w]) = join sep ws ++ sep ++ w.
Proof.
  induction ws as [| v ws IH]; intros Hne; [congruence |].
  destruct ws as [| v' ws]; [reflexivity |].
  change ((v :: v' :: ws) ++ [w]) with (v :: ((v' :: ws) ++ [w])).
  rewrite join_cons by (cbn; discriminate).
  rewrite IH by discriminate.
  rewrite (join_cons sep v (v' :: ws)) by discriminate.
  rewrite <- !app_assoc. reflexivity.
Qed.

Lemma rev_join (sep : str) (ws : list str) :
  rev (join sep ws) = join (rev sep) (rev (map (@rev char) ws)).
Proof.
  induction ws as [| w ws IH]; [reflexivity |].
  destruct ws as [| v ws]; [reflexivity |].
  rewrite join_cons by discriminate.
  rewrite !rev_app_distr, IH.
  change (rev (map (@rev char) (w :: v :: ws)))
    with (rev (map (@rev char) (v :: ws)) ++ [rev w]).
  rewrite join_snoc.
  - rewrite <- app_assoc. reflexivity.
  - cbn [map rev]. intros Hnil. apply app_eq_nil in Hnil. destruct Hnil; discriminate.
Qed.

(** Splitting what [join] put together gives the words back. *)
Lemma split_join (ws : list str) :
  Forall word ws -> split (join [32%N] ws) = ws.
Proof.
  unfold split. induction ws as [| w ws IH]; intros Hws; [reflexivity |].
  apply List.Forall_cons_iff in Hws. destruct Hws as [[Hne Hw] Hws].
  assert (Hrev : rev w <> []).
  { intros Hnil. apply Hne. rewrite <- (rev_involutive w), Hnil. reflexivity. }
  destruct ws as [| v ws].
  - cbn [join]. rewrite <- (app_nil_r w) at 1.
    rewrite split_go_app_word by exact Hw. rewrite app_nil_r. cbn [split_go].
    destruct (rev w) eqn:Hr; [congruence |].
    rewrite <- Hr, rev_involutive. reflexivity.
  - rewrite join_cons by discriminate.
    rewrite split_go_app_word by exact Hw. rewrite app_nil_r.
    cbn [app split_go]. change (isspace 32%N) with true. cbv iota.
    destruct (rev w) eqn:Hr; [congruence |].
    rewrite <- Hr, rev_involutive. f_equal. apply IH. exact Hws.
Qed.

Lemma before_word (w x l1 l2 : str) (c : char) :
  Forall (fun a => isspace a = false) w ->
  isspace c = true ->
  w ++ x = l1 ++ c :: l2 ->
  exists l1', l1 = w ++ l1' /\ x = l1' ++ c :: l2.
Proof.
  intros Hw Hc. revert l1. induction w as [| a w IH]; intros l1 Heq.
  - exists l1. split; [reflexivity | exact Heq].
  - apply List.Forall_cons_iff in Hw. destruct Hw as [Ha Hw].
    destruct l1 as [| a' l1]; cbn [app] in Heq; injection Heq as Hhd Htl.
    + congruence.
    + destruct (IH Hw l1 Htl) as (l1' & -> & Hx).
      exists l1'. split; [cbn [app]; congruence | exact Hx].
Qed.

Lemma join_head (ws : list str) (w : str) :
  word w -> exists b l, join [32%N] (w :: ws) = b :: l /\ isspace b = false.
Proof.
  intros [Hne Hw]. destruct w as [| b w]; [congruence |].
  apply List.Forall_cons_iff in Hw. destruct Hw as [Hb _].
  destruct ws as [| v ws].
  - exists b, w. split; [reflexivity | exact Hb].
  - exists b, (w ++ [32%N] ++ join [32%N] (v :: ws)). split; [reflexivity | exact Hb].
Qed.

(** Words joined by one space have no other whitespace. *)
Lemma join_single_spaced (ws : list str) :
  Forall word ws -> single_spaced (join [32%N] ws).
Proof.
  induction ws as [| w ws IH]; intros Hws l1 c l2 Heq Hc.
  - destruct l1; discriminate.
  - apply List.Forall_cons_iff in Hws. destruct Hws as [[Hne Hw] Hws].
    destruct ws as [| v ws].
    + cbn [join] in Heq. rewrite List.Forall_forall in Hw.
      rewrite Hw in Hc; [discriminate |]. rewrite Heq. apply in_elt.
    + rewrite join_cons in Heq by discriminate.
      destruct (before_word _ _ _ _ _ Hw Hc Heq) as (l1' & -> & Hx).
      destruct l1' as [| s l1']; cbn [app] in Hx; injection Hx as Hhd Htl.
      * subst c l2. split; [reflexivity | split].
        -- destruct (exists_last Hne) as (l & a & ->).
           exists l, a. rewrite app_nil_r. split; [reflexivity |].
           apply List.Forall_app in Hw. destruct Hw as [_ Ha].
           apply List.Forall_cons_iff in Ha. apply Ha.
        -- apply List.Forall_cons_iff in Hws. destruct Hws as [Hv _].
           apply join_head. exact Hv.
      * destruct (IH Hws l1' c l2 Htl Hc) as (Hsp & (l & a & -> & Ha) & Hnext).
        split; [exact Hsp | split; [| exact Hnext]].
        exists (w ++ s :: l), a. split; [| exact Ha].
        rewrite <- app_assoc. reflexivity.
Qed.

Lemma lstrip_head (s : str) :
  (forall c s', s = c :: s' -> isspace c = false) -> lstrip s = s.
Proof.
  destruct s as [| c s]; intros Hhd; [reflexivity |].
  cbn [lstrip]. rewrite (Hhd c s eq_refl). reflexivity.
Qed.

Lemma lstrip_join (ws : list str) :
  Forall word ws -> lstrip (join [32%N] ws) = join [32%N] ws.
Proof.
  intros Hws. apply lstrip_head. intros c s' Heq.
  destruct ws as [| w ws]; [discriminate |].
  apply List.Forall_cons_iff in Hws. destruct Hws as [Hw _].
  destruct (join_head ws w Hw) as (b & l & Hj & Hb). congruence.
Qed.

(** Line 111 changes nothing: what line 110 builds has no whitespace at
    either end. *)
Lemma strip_join (ws : list str) :
  Forall word ws -> strip (join [32%N] ws) = join [32%N] ws.
Proof.
  intros Hws. unfold strip.
  rewrite lstrip_join by exact Hws.
  rewrite rev_join. change (rev [32%N]) with [32%N].
  rewrite lstrip_join.
  - rewrite <- (rev_join [32%N]). apply rev_involutive.
  - apply List.Forall_rev. apply List.Forall_forall. intros w Hin.
    apply in_map_iff in Hin. destruct Hin as (v & <- & Hv).
    apply word_rev. rewrite List.Forall_forall in Hws. now apply Hws.
Qed.

Lemma clean_text_join (text : str) :
  clean_text text = join [32%N] (split text).
Proof. unfold clean_text. apply strip_join. apply split_words. Qed.

(** C7: the cleaned text has the words of the input in their order, every
    whitespace character left in it is a single space between two words (so
    runs of whitespace, newlines included, are collapsed and none leads or
    trails), the characters other than whitespace are kept in order, the empty
    text stays empty, and the example of the specification holds. *)
Theorem clean_text_spec (text : str) :
  split (clean_text text) = split text
  /\ single_spaced (clean_text text)
  /\ List.filter nonspace (clean_text text) = List.filter nonspace text
  /\ clean_text [] = []
  /\ clean_text (lit "a   b" ++ [10%N; 10%N] ++ lit "c") = lit "a b c".
Proof.
  rewrite clean_text_join.
  split; [| split; [| split; [| split]]].
  - apply split_join. apply split_words.
  - apply join_single_spaced. apply split_words.
  - rewrite <- !split_concat. rewrite split_join by apply split_words. reflexivity.
  - reflexivity.
  - reflexivity.
Qed.

(** Tabs, newlines and a no-break space around two words. *)
Lemma clean_text_spec_witness :
  clean_text ([9%N; 32%N] ++ lit "to" ++ [10%N; 13%N; 160%N] ++ lit "be" ++ [10%N])
  = lit "to be"
  /\ single_spaced (lit "to be").
Proof.
  split; [reflexivity |].
  exact (proj1 (proj2 (clean_text_spec
    ([9%N; 32%N] ++ lit "to" ++ [10%N; 13%N; 160%N] ++ lit "be" ++ [10%N])))).
Defined.

Lemma split_go_nonempty (s cur : str) : cur <> [] -> split_go cur s <> [].
Proof.
  revert cur. induction s as [| c s IH]; intros cur Hne; cbn [split_go].
  - destruct cur; [congruence | discriminate].
  - destruct (isspace c).
    + destruct cur; [congruence | discriminate].
    + apply IH. discriminate.
Qed.

Lemma single_spaced_tail (p s : str) :
  single_spaced (p ++ 32%N :: s) -> single_spaced s.
Proof.
  intros Hss l1 c l2 Heq Hc.
  destruct (Hss (p ++ 32%N :: l1) c l2) as (Hsp & (l & a & Hl & Ha) & Hnext).
  - rewrite Heq, <- app_assoc. reflexivity.
  - exact Hc.
  - split; [exact Hsp | split; [| exact Hnext]].
    destruct l1 as [| y l1].
    + apply app_inj_tail in Hl. destruct Hl as [_ <-]. discriminate.
    + destruct (exists_last (l := y :: l1)) as (k & x & Hk); [discriminate |].
      exists k, x. split; [exact Hk |].
      rewrite Hk in Hl.
      change (p ++ 32%N :: k ++ [x]) with (p ++ (32%N :: k) ++ [x]) in Hl.
      rewrite app_assoc in Hl. apply app_inj_tail in Hl. destruct Hl as [_ ->].
      exact Ha.
Qed.

Lemma single_spaced_join_go (s : str) :
  forall cur,
    single_spaced (rev cur ++ s) ->
    join [32%N] (split_go cur s) = rev cur ++ s.
Proof.
  induction s as [| c s IH]; intros cur Hss; cbn [split_go].
  - rewrite app_nil_r. destruct cur as [| a cur]; reflexivity.
  - destruct (isspace c) eqn:Hc.
    + destruct (Hss (rev cur) c s eq_refl Hc)
        as (-> & (l & a & Hl & _) & (b & l' & -> & Hb)).
      destruct cur as [| a' cur]; [destruct l; discriminate |].
      rewrite join_cons.
      * rewrite (IH []); [reflexivity |].
        cbn [rev app]. eapply single_spaced_tail. exact Hss.
      * cbn [split_go]. rewrite Hb. apply split_go_nonempty. discriminate.
    + rewrite (IH (c :: cur)).
      * cbn [rev]. rewrite <- app_assoc. reflexivity.
      * cbn [rev]. rewrite <- app_assoc. exact Hss.
Qed.

(** The two properties determine the result: a single-spaced text with the
    words of [text], in their order, is [clean_text text]. In particular a
    text that is single-spaced already is left as it is. *)
Theorem clean_text_unique (text s : str) :
  single_spaced s -> split s = split text -> s = clean_text text.
Proof.
  intros Hss Hwords. rewrite clean_text_join, <- Hwords.
  symmetry. apply (single_spaced_join_go s []). exact Hss.
Qed.

Lemma clean_text_unique_witness :
  lit "to be" = clean_text (lit "  to" ++ [10%N; 9%N] ++ lit "be ").
Proof.
  apply clean_text_unique; [| reflexivity].
  change (single_spaced (join [32%N] (split (lit "to be")))).
  apply join_single_spaced, split_words.
Defined.

End CleanFacts.

(** ** [AIClient.ask_question] *)

Module AIClientFacts.
Import Py AIClient Recent SliceFacts.

Lemma history_tail (h : list message) :
  match h with
  | [] => []
  | _ :: _ => slice_from h (-10)
  end = last_n 10 h.
Proof.
  destruct h as [| m h]; [reflexivity |].
  apply (slice_from_neg (m :: h) 10). lia.
Qed.

(** C10: the request [ask_question] sends carries the system prompt, one user
    message with the PDF context, the last ten entries of the history in
    their order (all of them when there are at most ten), and the question as
    the final user message; without a history the two middle parts are the
    context message alone. *)
Theorem ask_question_sends
    (create : request -> option str)
    (question pdf_context : str) (chat_history : list message) :
  ask_question create question pdf_context (Some chat_history)
  = create (Request
              ([ Message (lit "system") get_system_prompt;
                 Message (lit "user") (lit "PDF Content:" ++ nl ++ nl ++ pdf_context) ]
               ++ last_n 10 chat_history
               ++ [ Message (lit "user") question ])
              30 1500)
  /\ List.length (last_n 10 chat_history) = Nat.min 10 (List.length chat_history)
  /\ firstn (List.length chat_history - 10) chat_history ++ last_n 10 chat_history
     = chat_history
  /\ ask_question create question pdf_context None
     = create (Request
                 [ Message (lit "system") get_system_prompt;
                   Message (lit "user") (lit "PDF Content:" ++ nl ++ nl ++ pdf_context);
                   Message (lit "user") question ]
                 30 1500).
Proof.
  split; [| split; [apply last_n_length | split; [apply last_n_suffix | reflexivity]]].
  unfold ask_question, chat_completion, ask_question_messages.
  f_equal. f_equal.
  rewrite <- (history_tail chat_history).
  destruct chat_history as [| m h].
  - reflexivity.
  - rewrite <- app_assoc. reflexivity.
Qed.

(** Twelve entries: the two oldest are left out. *)
Example ask_question_twelve (q c : str) :
  let h := map (fun i => Message (lit "user") [N.of_nat i]) (seq 0 12) in
  map content (ask_question_messages q c (Some h))
  = [get_system_prompt; lit "PDF Content:" ++ nl ++ nl ++ c]
    ++ map (fun i => [N.of_nat i]) (seq 2 10) ++ [q].
Proof. reflexivity. Qed.

End AIClientFacts.

(** ** Context assembly *)

Module AppFacts.
Import Py ContextSpec App SliceFacts.

Lemma main_pdf_context_join (pdf_texts : list str) :
  main_pdf_context pdf_texts = join [10%N; 10%N] pdf_texts.
Proof. destruct pdf_texts; reflexivity. Qed.

Lemma chat_context_short (ctx : str) :
  len ctx <= budget -> chat_context ctx = ctx.
Proof.
  intros Hle. unfold chat_context.
  destruct (Z.gtb_spec (len ctx) budget) as [Hgt | _]; [lia | reflexivity].
Qed.

Lemma chat_context_long (ctx : str) :
  budget < len ctx -> chat_context ctx = firstn 3000 ctx ++ marker.
Proof.
  intros Hlt. unfold chat_context.
  destruct (Z.gtb_spec (len ctx) budget) as [_ | Hle]; [| lia].
  rewrite slice_to_nonneg by (unfold budget; lia). reflexivity.
Qed.

Lemma chat_context_length (ctx : str) :
  len (chat_context ctx) <= budget + len marker.
Proof.
  destruct (Z.le_gt_cases (len ctx) budget) as [Hle | Hgt].
  - rewrite chat_context_short by exact Hle. pose proof (len_nonneg marker). lia.
  - rewrite chat_context_long by lia. rewrite len_app.
    unfold len at 1. rewrite length_firstn. unfold budget. lia.
Qed.

Lemma join_tail_delimited (sep : str) (rest : list str) :
  rest <> [] ->
  sep ++ join sep rest = concat (map (fun d => sep ++ d) rest).
Proof.
  induction rest as [| r rest IH]; intros Hne; [now destruct Hne |].
  destruct rest as [| r' rest].
  - cbn [join map concat]. now rewrite app_nil_r.
  - change (join sep (r :: r' :: rest)) with (r ++ sep ++ join sep (r' :: rest)).
    rewrite IH by discriminate. cbn [map concat]. now rewrite <- !app_assoc.
Qed.

(** [sep.join] puts every text in, in order, with the delimiter between each
    two. *)
Lemma join_delimited (sep : str) (texts : list str) :
  join sep texts = delimited sep texts.
Proof.
  destruct texts as [| t [| r rest]]; cbn [delimited].
  - reflexivity.
  - cbn [join map concat]. now rewrite app_nil_r.
  - change (join sep (t :: r :: rest)) with (t ++ sep ++ join sep (r :: rest)).
    now rewrite join_tail_delimited by discriminate.
Qed.

Lemma len_delimited_tail (sep : str) (rest : list str) :
  len (concat (map (fun d => sep ++ d) rest))
  = total (map len rest) + len sep * len rest.
Proof.
  induction rest as [| r rest IH].
  - cbn [map concat total fold_right]. unfold len.
    cbn [List.length]. lia.
  - cbn [map concat total fold_right]. rewrite !len_app, IH.
    fold (total (map len rest)).
    replace (len (r :: rest)) with (1 + len rest)
      by (unfold len; cbn [List.length]; lia).
    lia.
Qed.

Lemma len_delimited (sep : str) (texts : list str) :
  len (delimited sep texts) = delimited_length sep texts.
Proof.
  unfold delimited_length. destruct texts as [| t rest].
  - cbn [delimited map total fold_right]. unfold len.
    cbn [List.length]. lia.
  - cbn [delimited map total fold_right]. rewrite len_app, len_delimited_tail.
    fold (total (map len rest)).
    replace (len (t :: rest) - 1) with (len rest)
      by (unfold len; cbn [List.length]; lia).
    pose proof (len_nonneg rest). rewrite Z.max_r by lia. lia.
Qed.

Lemma delimited_tail_holds (sep d : str) (rest : list str) :
  In d rest ->
  exists before after,
    concat (map (fun d => sep ++ d) rest) = before ++ d ++ after.
Proof.
  induction rest as [| r rest IH]; intros Hin; [destruct Hin |].
  cbn [map concat]. destruct Hin as [-> | Hin].
  - exists sep, (concat (map (fun d => sep ++ d) rest)).
    now rewrite <- app_assoc.
  - destruct (IH Hin) as (before & after & ->).
    exists ((sep ++ r) ++ before), after. now rewrite <- !app_assoc.
Qed.

Lemma delimited_holds (sep d : str) (texts : list str) :
  In d texts ->
  exists before after, delimited sep texts = before ++ d ++ after.
Proof.
  destruct texts as [| t rest]; intros Hin; [destruct Hin |].
  cbn [delimited]. destruct Hin as [-> | Hin].
  - now exists [], (concat (map (fun d => sep ++ d) rest)).
  - destruct (delimited_tail_holds sep d rest Hin) as (before & after & ->).
    exists (t ++ before), after. now rewrite <- app_assoc.
Qed.

(** C5: the context is all the document texts, in order, with a blank line
    between each two: every document is in it, and its length is the sum of
    theirs plus two for each document after the first. A context of more
    than 3000 characters is cut to its first 3000 followed by the marker, so
    the result then has 3000 characters plus the marker's and ends with the
    marker; the result never exceeds that length; no documents give the empty
    context, with which the prompt is the bare question. *)
Theorem assemble_context_spec (pdf_texts : list str) :
  main_pdf_context pdf_texts = delimited [10%N; 10%N] pdf_texts
  /\ len (main_pdf_context pdf_texts) = delimited_length [10%N; 10%N] pdf_texts
  /\ (forall d, In d pdf_texts ->
        exists before after, main_pdf_context pdf_texts = before ++ d ++ after)
  /\ (len (delimited [10%N; 10%N] pdf_texts) <= budget ->
        assemble_context pdf_texts = delimited [10%N; 10%N] pdf_texts)
  /\ (budget < len (delimited [10%N; 10%N] pdf_texts) ->
        assemble_context pdf_texts
        = firstn 3000 (delimited [10%N; 10%N] pdf_texts) ++ marker
        /\ len (assemble_context pdf_texts) = budget + len marker)
  /\ len (assemble_context pdf_texts) <= budget + len marker
  /\ assemble_context [] = []
  /\ forall user_query, chat_prompt user_query (main_pdf_context []) = user_query.
Proof.
  unfold assemble_context.
  rewrite main_pdf_context_join, join_delimited.
  split; [reflexivity |].
  split; [apply len_delimited |].
  split; [intros d Hin; now apply delimited_holds |].
  split; [apply chat_context_short |].
  split; [| split; [apply chat_context_length | split; reflexivity]].
  intros Hlt. rewrite chat_context_long by exact Hlt. split; [reflexivity |].
  rewrite len_app. unfold len at 1. rewrite length_firstn.
  unfold budget, len in *. lia.
Qed.

(** Two documents of 2000 characters: the second is cut after 998. *)
Lemma assemble_context_spec_witness :
  assemble_context [repeat 120%N 2000; repeat 121%N 2000]
  = repeat 120%N 2000 ++ [10%N; 10%N] ++ repeat 121%N 998 ++ marker
  /\ len (assemble_context [repeat 120%N 2000; repeat 121%N 2000]) = 3000 + 24
  /\ len (main_pdf_context [repeat 120%N 2000; repeat 121%N 2000]) = 4002.
Proof.
  destruct (assemble_context_spec [repeat 120%N 2000; repeat 121%N 2000])
    as (_ & Htotal & _ & _ & Hlong & _).
  destruct Hlong as [Heq Hlen]; [vm_compute; reflexivity |].
  split; [rewrite Heq; vm_compute; reflexivity |].
  split; [rewrite Hlen; reflexivity | rewrite Htotal; vm_compute; reflexivity].
Defined.

End AppFacts.

(** ** The conversation history *)

Module ConversationFacts.
Import Py ConversationManager Recent SliceFacts.

Lemma trim_zero {A} (l : list A) : trim 0 l = l.
Proof.
  unfold trim. destruct (len l >? 0); [apply slice_from_zero | reflexivity].
Qed.

Lemma trim_last_n {A} (max : Z) (l : list A) :
  1 <= max -> trim max l = last_n (Z.to_nat max) l.
Proof.
  intros Hmax. unfold trim.
  destruct (Z.gtb_spec (len l) max) as [Hgt | Hle].
  - apply slice_from_neg. lia.
  - symmetry. apply last_n_all. unfold len in Hle. lia.
Qed.

Lemma add_all_max_history (calls : list (str * str)) (self : t) :
  max_history (add_all self calls) = max_history self.
Proof.
  revert self. induction calls as [| c calls IH]; intros self; [reflexivity |].
  cbn [add_all fold_left]. change (fold_left _ calls ?s) with (add_all s calls).
  rewrite IH. reflexivity.
Qed.

Lemma add_all_cap_zero (calls : list (str * str)) (self : t) :
  max_history self = 0 ->
  messages (add_all self calls) = messages self ++ sent calls.
Proof.
  revert self. induction calls as [| c calls IH]; intros self Hzero.
  - cbn. now rewrite app_nil_r.
  - cbn [add_all fold_left]. change (fold_left _ calls ?s) with (add_all s calls).
    rewrite IH by exact Hzero.
    cbn [add_message messages]. rewrite Hzero, trim_zero.
    rewrite <- app_assoc. reflexivity.
Qed.

(** C4: with [max_history = 0] line 250 takes [messages[-0:]], the whole
    list, so nothing is ever evicted: the history holds every message added,
    one message after the first call. *)
Theorem add_message_cap_zero_keeps_all (calls : list (str * str)) :
  get_history (add_all (init 0) calls) = sent calls
  /\ len (get_history (add_message (init 0) (lit "user") (lit "hi"))) = 1.
Proof.
  split; [| reflexivity].
  unfold get_history. rewrite add_all_cap_zero by reflexivity. reflexivity.
Qed.

Lemma add_all_last_n (calls : list (str * str)) (self : t) :
  1 <= max_history self ->
  len (messages self) <= max_history self ->
  messages (add_all self calls)
  = last_n (Z.to_nat (max_history self)) (messages self ++ sent calls).
Proof.
  revert self. induction calls as [| c calls IH]; intros self Hmax Hlen.
  - cbn [add_all fold_left sent map]. rewrite app_nil_r.
    symmetry. apply last_n_all. unfold len in Hlen. lia.
  - cbn [add_all fold_left]. change (fold_left _ calls ?s) with (add_all s calls).
    rewrite IH.
    + cbn [add_message messages max_history].
      rewrite trim_last_n by exact Hmax.
      rewrite last_n_app_l. rewrite <- app_assoc. reflexivity.
    + exact Hmax.
    + cbn [add_message messages max_history].
      rewrite trim_last_n by exact Hmax.
      unfold len. rewrite last_n_length. lia.
Qed.

(** With a cap of at least one the history is bounded and first-in,
    first-out: after any calls on a new manager it holds the most recent
    [max_history] messages, in the order they were added. *)
Theorem add_all_keeps_most_recent (max : Z) (calls : list (str * str)) :
  1 <= max ->
  get_history (add_all (init max) calls) = last_n (Z.to_nat max) (sent calls)
  /\ len (get_history (add_all (init max) calls)) <= max
  /\ firstn (List.length calls - Z.to_nat max) (sent calls)
     ++ get_history (add_all (init max) calls) = sent calls.
Proof.
  intros Hmax. unfold get_history.
  rewrite add_all_last_n by (unfold init, len; cbn; lia).
  cbn [init messages max_history app].
  split; [reflexivity | split].
  - unfold len. rewrite last_n_length. lia.
  - rewrite <- (length_map (fun rc => Message (fst rc) (snd rc)) calls).
    apply last_n_suffix.
Qed.

(** Twenty-five calls with a cap of twenty: the last twenty remain. *)
Lemma add_all_keeps_most_recent_witness :
  let calls := map (fun i => (lit "user", [N.of_nat i])) (seq 0 25) in
  map content (get_history (add_all (init 20) calls))
  = map (fun i => [N.of_nat i]) (seq 5 20)
  /\ len (get_history (add_all (init 20) calls)) = 20.
Proof.
  destruct (add_all_keeps_most_recent 20
              (map (fun i => (lit "user", [N.of_nat i])) (seq 0 25)))
    as (Heq & _); [lia |].
  cbv zeta. rewrite Heq. split; reflexivity.
Defined.

End ConversationFacts.

(** ** The history as a list object *)

Module StoreFacts.
Import Py ConversationStore.

Lemma mutate_lists_other (h : heap) (r x : loc) (op : list_op) :
  x <> r -> lists (mutate h r op) !! x = lists h !! x.
Proof.
  intros Hne. unfold mutate.
  destruct (lists h !! r) as [l |]; [| reflexivity].
  cbn [store_list lists]. apply lookup_insert_ne. congruence.
Qed.

Lemma mutate_dicts (h : heap) (r : loc) (op : list_op) :
  dicts (mutate h r op) = dicts h.
Proof. unfold mutate. destruct (lists h !! r); reflexivity. Qed.

Lemma mutate_all_lists_other (ops : list list_op) (h : heap) (r x : loc) :
  x <> r -> lists (mutate_all h r ops) !! x = lists h !! x.
Proof.
  intros Hne. revert h. induction ops as [| op ops IH]; intros h; [reflexivity |].
  cbn [mutate_all fold_left]. change (fold_left _ ops ?s) with (mutate_all s r ops).
  rewrite IH. now apply mutate_lists_other.
Qed.

Lemma mutate_all_dicts (ops : list list_op) (h : heap) (r : loc) :
  dicts (mutate_all h r ops) = dicts h.
Proof.
  revert h. induction ops as [| op ops IH]; intros h; [reflexivity |].
  cbn [mutate_all fold_left]. change (fold_left _ ops ?s) with (mutate_all s r ops).
  rewrite IH. apply mutate_dicts.
Qed.

(** The copy is a list object of its own. *)
Lemma get_history_fresh (h h1 : heap) (self : manager) (r : loc) :
  get_history h self = Some (h1, r) ->
  exists l,
    lists h !! messages self = Some l
    /\ lists h !! r = None
    /\ h1 = Heap (<[r := l]> (lists h)) (dicts h).
Proof.
  unfold get_history, alloc_list. intros Hget.
  destruct (lists h !! messages self) as [l |] eqn:Hl; [| discriminate].
  injection Hget as <- <-. exists l. split; [reflexivity | split; [| reflexivity]].
  apply not_elem_of_dom. apply is_fresh.
Qed.

Lemma read_alloc_list (h : heap) (l : list loc) :
  read (fst (alloc_list h l)) (snd (alloc_list h l))
  = mapM (fun d => dicts h !! d) l.
Proof.
  unfold read, alloc_list. cbn [fst snd lists dicts].
  rewrite lookup_insert_eq. reflexivity.
Qed.

(** C9: [get_history] hands out a new list object. Whatever list operations
    the caller then applies to it, the manager's own list and the message
    dictionaries are as before, and the next [get_history] returns the
    messages the first one returned. *)
Theorem get_history_copy_isolated
    (h h1 : heap) (self : manager) (r : loc) (ops : list list_op) :
  get_history h self = Some (h1, r) ->
  r <> messages self
  /\ lists (mutate_all h1 r ops) !! messages self = lists h !! messages self
  /\ read (mutate_all h1 r ops) (messages self) = read h (messages self)
  /\ exists h2 r2,
       get_history (mutate_all h1 r ops) self = Some (h2, r2)
       /\ read h2 r2 = read h1 r
       /\ read h2 r2 = read h (messages self).
Proof.
  intros Hget.
  destruct (get_history_fresh _ _ _ _ Hget) as (l & Hl & Hr & ->).
  assert (Hne : r <> messages self) by congruence.
  assert (Hsame : lists (mutate_all (Heap (<[r := l]> (lists h)) (dicts h)) r ops)
                    !! messages self = Some l).
  { rewrite mutate_all_lists_other by congruence.
    cbn [lists]. rewrite lookup_insert_ne by exact Hne. exact Hl. }
  split; [exact Hne |]. split; [congruence |]. split.
  - unfold read. rewrite Hsame, Hl, mutate_all_dicts. reflexivity.
  - unfold get_history. rewrite Hsame.
    eexists _, _. split; [rewrite (surjective_pairing (alloc_list _ l)); reflexivity |].
    rewrite read_alloc_list, mutate_all_dicts. cbn [dicts].
    unfold read at 1 2. cbn [lists dicts]. rewrite lookup_insert_eq, Hl.
    split; reflexivity.
Qed.

(** A manager holding one message; the caller clears the copy, appends to it
    and reverses it. *)
Lemma get_history_copy_isolated_witness :
  let h := Heap {[ 1%positive := [2%positive] ]}
                {[ 2%positive := Message (lit "user") (lit "hi") ]} in
  let self := Manager 1%positive 20 in
  exists h1 r,
    get_history h self = Some (h1, r)
    /\ read (mutate_all h1 r [Clear; Append 7%positive; Reverse]) (messages self)
       = read h (messages self)
    /\ read h (messages self) = Some [Message (lit "user") (lit "hi")].
Proof.
  cbv zeta. eexists _, _. split; [reflexivity |]. split; [| reflexivity].
  refine (proj1 (proj2 (proj2 (get_history_copy_isolated _ _ _ _ _ _)))).
  reflexivity.
Defined.

End StoreFacts.

(** ** The stored manager and the manager by value *)

Module RefineFacts.
Import Py ConversationStore SliceFacts.

Lemma mapM_insert_fresh (dicts : gmap loc message) (d : loc) (m : message)
    (l : list loc) (msgs : list message) :
  dicts !! d = None ->
  mapM (fun x => dicts !! x) l = Some msgs ->
  mapM (fun x => <[d := m]> dicts !! x) l = Some msgs.
Proof.
  intros Hfresh Hl. apply mapM_Some in Hl. apply mapM_Some.
  induction Hl as [| x y l msgs Hxy _ IH]; constructor; [| exact IH].
  rewrite lookup_insert_ne by congruence. exact Hxy.
Qed.

Lemma mapM_snoc (dicts : gmap loc message) (d : loc) (m : message)
    (l : list loc) (msgs : list message) :
  mapM (fun x => dicts !! x) l = Some msgs ->
  dicts !! d = Some m ->
  mapM (fun x => dicts !! x) (l ++ [d]) = Some (msgs ++ [m]).
Proof.
  intros Hl Hd. apply mapM_Some in Hl. apply mapM_Some.
  apply Forall2_app; [exact Hl |]. constructor; [exact Hd | constructor].
Qed.

Lemma mapM_slice_from (dicts : gmap loc message)
    (l : list loc) (msgs : list message) (k : Z) :
  mapM (fun x => dicts !! x) l = Some msgs ->
  mapM (fun x => dicts !! x) (slice_from l k) = Some (slice_from msgs k).
Proof.
  intros Hl. apply mapM_Some in Hl. apply mapM_Some.
  unfold slice_from, len. rewrite (Forall2_length _ _ _ Hl).
  apply Forall2_drop. exact Hl.
Qed.

(** [add_message] on a stored manager does to its messages what
    [ConversationManager.add_message] does to the manager by value. *)
Theorem add_message_refines
    (h : heap) (self : manager) (role content : str) (v : ConversationManager.t) :
  view h self = Some v ->
  exists h' self',
    add_message h self role content = Some (h', self')
    /\ view h' self' = Some (ConversationManager.add_message v role content).
Proof.
  unfold view, read, add_message, alloc_dict, alloc_list, store_list.
  intros Hview.
  destruct (lists h !! messages self) as [l |] eqn:Hl; [| discriminate].
  destruct (mapM (fun d => dicts h !! d) l) as [msgs |] eqn:Hmsgs; [| discriminate].
  injection Hview as <-.
  set (d := fresh (dom (dicts h))).
  assert (Hd : dicts h !! d = None) by (apply not_elem_of_dom, is_fresh).
  assert (Hall : mapM (fun x => <[d := Message role content]> (dicts h) !! x) (l ++ [d])
                 = Some (msgs ++ [Message role content])).
  { apply mapM_snoc; [now apply mapM_insert_fresh | apply lookup_insert_eq]. }
  assert (Hlen : len (l ++ [d]) = len (msgs ++ [Message role content])).
  { apply mapM_Some in Hall. unfold len. now rewrite (Forall2_length _ _ _ Hall). }
  unfold ConversationManager.add_message, ConversationManager.trim.
  cbn [ConversationManager.messages ConversationManager.max_history lists dicts].
  rewrite <- Hlen.
  destruct (len (l ++ [d]) >? max_history self).
  - eexists _, _. split; [reflexivity |].
    cbn [messages max_history lists dicts].
    rewrite lookup_insert_eq.
    rewrite (mapM_slice_from _ _ _ _ Hall). reflexivity.
  - eexists _, _. split; [reflexivity |].
    cbn [lists dicts]. rewrite lookup_insert_eq, Hall. reflexivity.
Qed.

Lemma add_message_refines_witness :
  exists h' self',
    add_message (Heap {[ 1%positive := [] ]} ∅) (Manager 1%positive 20)
                (lit "user") (lit "hi")
    = Some (h', self')
    /\ view h' self'
       = Some (ConversationManager.add_message
                 (ConversationManager.init 20) (lit "user") (lit "hi")).
Proof.
  apply (add_message_refines (Heap {[ 1%positive := [] ]} ∅) (Manager 1%positive 20)).
  vm_compute. reflexivity.
Defined.

(** A new stored manager stands for the new manager by value. *)
Lemma init_view (h : heap) (max : Z) :
  view (fst (init h max)) (snd (init h max)) = Some (ConversationManager.init max).
Proof.
  unfold view, read, init, alloc_list. cbn [fst snd messages max_history lists].
  rewrite lookup_insert_eq. reflexivity.
Qed.

(** On a stored manager that stands for [v], [get_history] succeeds, and the
    list it returns holds the messages [ConversationManager.get_history v]. *)
Lemma get_history_view (h : heap) (self : manager) (v : ConversationManager.t) :
  view h self = Some v ->
  exists h1 r,
    get_history h self = Some (h1, r)
    /\ read h1 r = Some (ConversationManager.get_history v)
    /\ view h1 self = Some v.
Proof.
  unfold view, read, get_history, alloc_list. intros Hview.
  destruct (lists h !! messages self) as [l |] eqn:Hl; [| discriminate].
  destruct (mapM (fun d => dicts h !! d) l) as [msgs |] eqn:Hmsgs; [| discriminate].
  injection Hview as <-.
  eexists _, _. split; [reflexivity |]. cbn [lists dicts].
  rewrite lookup_insert_eq, Hmsgs. split; [reflexivity |].
  rewrite lookup_insert_ne.
  - rewrite Hl, Hmsgs. reflexivity.
  - intros Heq.
    pose proof (is_fresh (dom (lists h))) as Hfresh.
    rewrite Heq in Hfresh. apply Hfresh, elem_of_dom. eauto.
Qed.

(** The copy is shallow: the list is new, the message dictionaries in it are
    the manager's own, so a caller that changes one of them changes what the
    manager holds. *)
Remark get_history_copy_is_shallow :
  let h := Heap {[ 1%positive := [2%positive] ]}
                {[ 2%positive := Message (lit "user") (lit "hi") ]} in
  let self := Manager 1%positive 20 in
  exists h1 r d,
    get_history h self = Some (h1, r)
    /\ lists h1 !! r = Some [d]
    /\ read (mutate_dict h1 d (Message (lit "user") (lit "bye"))) (messages self)
       = Some [Message (lit "user") (lit "bye")].
Proof.
  eexists _, _, _. split; [reflexivity |]. split; vm_compute; reflexivity.
Qed.

End RefineFacts.

(** ** [strip] *)

Module StripFacts.
Import Py Words.

Lemma lstrip_blank (w s : str) : blank w -> lstrip (w ++ s) = lstrip s.
Proof.
  induction w as [| c w IH]; intros Hw; [reflexivity |].
  apply List.Forall_cons_iff in Hw. destruct Hw as [Hc Hw].
  cbn [app lstrip]. rewrite Hc. apply IH. exact Hw.
Qed.

(** [lstrip] takes a blank prefix off, and what is left does not start with
    whitespace. *)
Lemma lstrip_split (s : str) :
  exists w, blank w /\ s = w ++ lstrip s
            /\ (forall c r, lstrip s = c :: r -> isspace c = false).
Proof.
  induction s as [| c s IH].
  - exists []. split; [constructor | split; [reflexivity | discriminate]].
  - cbn [lstrip]. destruct (isspace c) eqn:Hc.
    + destruct IH as (w & Hw & Heq & Hhd).
      exists (c :: w). split; [constructor; assumption |].
      split; [cbn [app]; congruence | exact Hhd].
    + exists []. split; [constructor | split; [reflexivity |]].
      intros c' r Heq. injection Heq as <- _. exact Hc.
Qed.

Lemma lstrip_nil (s : str) : lstrip s = [] <-> blank s.
Proof.
  split.
  - intros Hnil. destruct (lstrip_split s) as (w & Hw & Heq & _).
    rewrite Hnil, app_nil_r in Heq. now subst.
  - intros Hs. rewrite <- (app_nil_r s). now rewrite lstrip_blank.
Qed.

Lemma lstrip_fixed (s : str) :
  (forall c r, s = c :: r -> isspace c = false) -> lstrip s = s.
Proof.
  destruct s as [| c s]; intros Hhd; [reflexivity |].
  cbn [lstrip]. now rewrite (Hhd c s eq_refl).
Qed.

Lemma lstrip_app (s w : str) : lstrip s <> [] -> lstrip (s ++ w) = lstrip s ++ w.
Proof.
  induction s as [| c s IH]; intros Hne; [now destruct Hne |].
  cbn [app lstrip] in *. destruct (isspace c); [apply IH; exact Hne | reflexivity].
Qed.

Lemma blank_rev (w : str) : blank w -> blank (rev w).
Proof. apply List.Forall_rev. Qed.

Lemma blank_app (a b : str) : blank a -> blank b -> blank (a ++ b).
Proof. intros Ha Hb. apply List.Forall_app. now split. Qed.

(** Whitespace at the end does not change what [strip] gives. *)
Lemma strip_app_blank (s w : str) : blank w -> strip (s ++ w) = strip s.
Proof.
  intros Hw. unfold strip.
  destruct (lstrip s) as [| c r] eqn:Hs.
  - assert (Hall : lstrip (s ++ w) = []).
    { apply lstrip_nil, blank_app; [now apply lstrip_nil | exact Hw]. }
    rewrite Hall. reflexivity.
  - rewrite lstrip_app by (rewrite Hs; discriminate). rewrite Hs, rev_app_distr.
    rewrite lstrip_blank by now apply blank_rev. reflexivity.
Qed.

Lemma strip_blank (s : str) : strip s = [] <-> blank s.
Proof.
  unfold strip. split.
  - intros Hnil.
    assert (Hrev : lstrip (rev (lstrip s)) = []).
    { rewrite <- (rev_involutive (lstrip _)), Hnil. reflexivity. }
    apply lstrip_nil in Hrev. apply blank_rev in Hrev.
    rewrite rev_involutive in Hrev.
    destruct (lstrip_split s) as (w & Hw & Heq & _).
    rewrite Heq. now apply blank_app.
  - intros Hs. apply lstrip_nil in Hs. rewrite Hs. reflexivity.
Qed.

(** What [strip] gives starts and ends with a character that is not
    whitespace, and differs from its argument by blank ends only. *)
Lemma strip_spec (s : str) :
  (forall c r, strip s = c :: r -> isspace c = false)
  /\ (forall c r, strip s = r ++ [c] -> isspace c = false)
  /\ exists w1 w2, blank w1 /\ blank w2 /\ s = w1 ++ strip s ++ w2.
Proof.
  unfold strip.
  destruct (lstrip_split s) as (w1 & Hw1 & Heq1 & Hhd1).
  destruct (lstrip_split (rev (lstrip s))) as (w2 & Hw2 & Heq2 & Hhd2).
  set (y := lstrip (rev (lstrip s))) in *.
  assert (Hmid : lstrip s = rev y ++ rev w2).
  { rewrite <- (rev_involutive (lstrip s)), Heq2, rev_app_distr. reflexivity. }
  split; [| split].
  - intros c r Hy. destruct (rev y) as [| c' r'] eqn:Hry; [discriminate |].
    injection Hy as -> ->. apply (Hhd1 c (r ++ rev w2)).
    rewrite Hmid. reflexivity.
  - intros c r Hy. apply (Hhd2 c (rev r)).
    rewrite <- (rev_involutive y), Hy, rev_app_distr. reflexivity.
  - exists w1, (rev w2). split; [exact Hw1 | split; [now apply blank_rev |]].
    rewrite <- Hmid. exact Heq1.
Qed.

(** Stripping twice is stripping once. *)
Lemma strip_strip (s : str) : strip (strip s) = strip s.
Proof.
  destruct (strip_spec s) as (Hhd & Htl & _).
  unfold strip at 1.
  rewrite (lstrip_fixed (strip s)) by exact Hhd.
  rewrite lstrip_fixed; [apply rev_involutive |].
  intros c r Hrev. apply (Htl c (rev r)).
  rewrite <- (rev_involutive (strip s)), Hrev. reflexivity.
Qed.

End StripFacts.

(** ** The two PDF extractors *)

Module PdfFacts.
Import Py Words Exc Pdf PdfSpec StripFacts.

Lemma text_parts_quiet (ps : list page) :
  forall n, PDFExtractor.text_parts n (map quiet ps) = PDFExtractor.text_parts n ps.
Proof.
  induction ps as [| [[| c t] | e] ps IH]; intros n; cbn [map quiet PDFExtractor.text_parts];
    [reflexivity | apply IH | f_equal; apply IH | apply IH].
Qed.

Lemma text_parts_nil (ps : list page) :
  forall n, PDFExtractor.text_parts n ps = [] <-> (forall p, In p ps -> has_text p = false).
Proof.
  induction ps as [| [[| c t] | e] ps IH]; intros n; cbn [PDFExtractor.text_parts].
  - split; [intros _ p [] | reflexivity].
  - rewrite IH. split.
    + intros H p [<- | Hin]; [reflexivity | now apply H].
    + intros H p Hin. apply H. now right.
  - split; [discriminate |]. intros H.
    specialize (H (PageText (c :: t)) (or_introl eq_refl)). discriminate.
  - rewrite IH. split.
    + intros H p [<- | Hin]; [reflexivity | now apply H].
    + intros H p Hin. apply H. now right.
Qed.

(** The header of a page shows its position in the file, whatever pages
    before it were passed over. *)
Lemma text_parts_nth (ps : list page) :
  forall n i c t,
    nth_error ps i = Some (PageText (c :: t)) ->
    In (page_part (n + Z.of_nat i) (c :: t)) (PDFExtractor.text_parts n ps).
Proof.
  induction ps as [| p ps IH]; intros n i c t Hnth; [destruct i; discriminate |].
  destruct i as [| i].
  - cbn [nth_error] in Hnth. injection Hnth as ->.
    cbn [PDFExtractor.text_parts]. rewrite Z.add_0_r. now left.
  - cbn [nth_error] in Hnth.
    specialize (IH (n + 1) i c t Hnth).
    replace (n + 1 + Z.of_nat i) with (n + Z.of_nat (S i)) in IH by lia.
    destruct p as [[| c' t'] | e]; cbn [PDFExtractor.text_parts];
      [exact IH | right; exact IH | exact IH].
Qed.

Lemma text_parts_bracket (ps : list page) :
  forall n part rest,
    PDFExtractor.text_parts n ps = part :: rest -> exists r, part = 91%N :: r.
Proof.
  induction ps as [| [[| c t] | e] ps IH]; intros n part rest Heq;
    cbn [PDFExtractor.text_parts] in Heq.
  - discriminate.
  - eapply IH; eassumption.
  - injection Heq as <- _. unfold page_part. cbn [lit List.map list_ascii_of_string app].
    eexists. reflexivity.
  - eapply IH; eassumption.
Qed.

Lemma join_starts (sep part : str) (rest : list str) :
  exists r, join sep (part :: rest) = part ++ r.
Proof.
  destruct rest as [| q rest].
  - exists []. cbn [join]. now rewrite app_nil_r.
  - eexists. reflexivity.
Qed.

(** Stripping a text that starts with a character that is not whitespace
    keeps its first character. *)
Lemma strip_keeps_head (c : char) (r : str) :
  isspace c = false -> exists r', strip (c :: r) = c :: r'.
Proof.
  intros Hc.
  destruct (strip_spec (c :: r)) as (_ & _ & w1 & w2 & Hw1 & _ & Heq).
  destruct w1 as [| a w1].
  - destruct (strip (c :: r)) as [| c' r'] eqn:Hs.
    + apply strip_blank in Hs. apply List.Forall_cons_iff in Hs.
      destruct Hs as [Hs _]. congruence.
    + cbn [app] in Heq. injection Heq as <- _. eexists. reflexivity.
  - cbn [app] in Heq. injection Heq as <- _.
    apply List.Forall_cons_iff in Hw1. destruct Hw1 as [Ha _]. congruence.
Qed.

Lemma extractor_pages (ps : list page) :
  exists text,
    PDFExtractor.extract_text_from_pdf (Pages ps) = Ok text
    /\ PDFExtractor.extract_text_from_pdf (Pages (map quiet ps)) = Ok text
    /\ (text = [] <-> forall p, In p ps -> has_text p = false)
    /\ (text <> [] -> exists r, text = 91%N :: r)
    /\ strip text = text.
Proof.
  eexists. split; [reflexivity |]. cbn [PDFExtractor.extract_text_from_pdf].
  split; [now rewrite text_parts_quiet |].
  split; [| split; [| apply strip_strip]].
  - rewrite <- (text_parts_nil ps 0).
    destruct (PDFExtractor.text_parts 0 ps) as [| part rest] eqn:Hparts.
    + split; reflexivity.
    + split; [| discriminate]. intros Hnil. exfalso.
      destruct (text_parts_bracket _ _ _ _ Hparts) as (r & ->).
      destruct (join_starts [10%N; 10%N] (91%N :: r) rest) as (r' & Hj).
      rewrite Hj in Hnil. cbn [app] in Hnil.
      destruct (strip_keeps_head 91%N (r ++ r') eq_refl) as (r'' & Hs).
      pose proof (eq_trans (eq_sym Hs) Hnil) as Habs. discriminate Habs.
  - intros Hne.
    destruct (PDFExtractor.text_parts 0 ps) as [| part rest] eqn:Hparts.
    + now destruct Hne.
    + destruct (text_parts_bracket _ _ _ _ Hparts) as (r & ->).
      destruct (join_starts [10%N; 10%N] (91%N :: r) rest) as (r' & Hj).
      rewrite Hj. cbn [app]. apply (strip_keeps_head 91%N (r ++ r') eq_refl).
Qed.

(** [PDFExtractor.extract_text_from_pdf] on a file the reader opens: it
    returns, and a page whose extraction raises counts as a page without
    text. The result is empty exactly when no page has text; otherwise it
    starts with the bracket of a page header. It has no whitespace at either
    end, and the header of each page with text shows the position of the page
    in the file. *)
Theorem extract_text_from_pdf_pages (ps : list page) :
  exists text,
    PDFExtractor.extract_text_from_pdf (Pages ps) = Ok text
    /\ PDFExtractor.extract_text_from_pdf (Pages (map quiet ps)) = Ok text
    /\ (text = [] <-> forall p, In p ps -> has_text p = false)
    /\ (text <> [] -> exists r, text = 91%N :: r)
    /\ strip text = text
    /\ forall i c t,
         nth_error ps i = Some (PageText (c :: t)) ->
         In (page_part (Z.of_nat i) (c :: t)) (PDFExtractor.text_parts 0 ps).
Proof.
  destruct (extractor_pages ps) as (text & H1 & H2 & H3 & H4 & H5).
  exists text. repeat (split; [assumption |]).
  intros i c t Hnth. apply (text_parts_nth ps 0 i c t Hnth).
Qed.

(** Three pages: the second raises, the third has text. *)
Lemma extract_text_from_pdf_pages_witness :
  PDFExtractor.extract_text_from_pdf
    (Pages [PageText (lit "one"); PageRaises (lit "bad"); PageText (lit "three ")])
  = Ok (lit "[Page 1]" ++ [10%N] ++ lit "one" ++ [10%N; 10%N]
        ++ lit "[Page 3]" ++ [10%N] ++ lit "three")
  /\ In (page_part 2 (lit "three "))
        (PDFExtractor.text_parts 0
           [PageText (lit "one"); PageRaises (lit "bad"); PageText (lit "three ")]).
Proof.
  destruct (extract_text_from_pdf_pages
              [PageText (lit "one"); PageRaises (lit "bad"); PageText (lit "three ")])
    as (text & _ & _ & _ & _ & _ & Hnth).
  split; [reflexivity |].
  apply (Hnth 2%nat 116%N (lit "hree ")). reflexivity.
Defined.

Lemma read_pages_parts (ps : list page) :
  forall n text,
    (forall p, In p ps -> raises p = false) ->
    PDFProcessor.read_pages n ps text
    = Some (text ++ concat (map (fun part => part ++ [10%N; 10%N])
                                (PDFExtractor.text_parts n ps))).
Proof.
  induction ps as [| [[| c t] | e] ps IH]; intros n text Hq;
    cbn [PDFProcessor.read_pages PDFExtractor.text_parts map concat].
  - now rewrite app_nil_r.
  - apply IH. intros p Hin. apply Hq. now right.
  - rewrite IH by (intros p Hin; apply Hq; now right).
    rewrite <- !app_assoc. reflexivity.
  - specialize (Hq (PageRaises e) (or_introl eq_refl)). discriminate.
Qed.

Lemma read_pages_raises (ps : list page) :
  forall n text,
    (exists p, In p ps /\ raises p = true) ->
    PDFProcessor.read_pages n ps text = None.
Proof.
  induction ps as [| [[| c t] | e] ps IH]; intros n text (p & Hin & Hr);
    cbn [PDFProcessor.read_pages].
  - destruct Hin.
  - apply IH. destruct Hin as [<- | Hin]; [discriminate | eauto].
  - apply IH. destruct Hin as [<- | Hin]; [discriminate | eauto].
  - reflexivity.
Qed.

Lemma concat_with_sep (sep : str) (parts : list str) :
  parts <> [] ->
  concat (map (fun part => part ++ sep) parts) = join sep parts ++ sep.
Proof.
  induction parts as [| p parts IH]; intros Hne; [now destruct Hne |].
  destruct parts as [| q parts].
  - cbn [map concat join]. now rewrite app_nil_r.
  - cbn [map concat] in *. rewrite IH by discriminate.
    cbn [join]. rewrite <- !app_assoc. reflexivity.
Qed.

(** [PDFProcessor.extract_text] of [app.py] and
    [PDFExtractor.extract_text_from_pdf] of [main.py] give the same text for a
    file whose pages all extract. They part on failures: when a page raises,
    the first gives the empty text for the whole file, where the second
    passes over the page; when the reader cannot open the file, the first
    gives the empty text and the second raises [ValueError]. *)
Theorem extract_text_agrees (ps : list page) :
  ((forall p, In p ps -> raises p = false) ->
     PDFExtractor.extract_text_from_pdf (Pages ps)
     = Ok (PDFProcessor.extract_text (Pages ps)))
  /\ ((exists p, In p ps /\ raises p = true) ->
        PDFProcessor.extract_text (Pages ps) = [])
  /\ (forall e,
        PDFProcessor.extract_text (Unreadable e) = []
        /\ PDFExtractor.extract_text_from_pdf (Unreadable e)
           = Raise (ValueError (lit "Failed to process PDF: " ++ e))).
Proof.
  split; [| split].
  - intros Hq. cbn [PDFExtractor.extract_text_from_pdf PDFProcessor.extract_text].
    rewrite (read_pages_parts ps 0 [] Hq). cbn [app]. f_equal.
    destruct (PDFExtractor.text_parts 0 ps) as [| part rest] eqn:Hparts;
      [reflexivity |].
    rewrite concat_with_sep by discriminate.
    symmetry. apply strip_app_blank.
    repeat constructor.
  - intros Hr. cbn [PDFProcessor.extract_text].
    now rewrite (read_pages_raises ps 0 [] Hr).
  - intros e. split; reflexivity.
Qed.

Lemma extract_text_agrees_witness :
  PDFExtractor.extract_text_from_pdf (Pages [PageText (lit "one"); PageText (lit "two ")])
  = Ok (PDFProcessor.extract_text (Pages [PageText (lit "one"); PageText (lit "two ")]))
  /\ PDFProcessor.extract_text (Pages [PageText (lit "one"); PageRaises (lit "bad")]) = [].
Proof.
  split.
  - apply (proj1 (extract_text_agrees [PageText (lit "one"); PageText (lit "two ")])).
    intros p [<- | [<- | []]]; reflexivity.
  - apply (proj1 (proj2 (extract_text_agrees
                           [PageText (lit "one"); PageRaises (lit "bad")]))).
    exists (PageRaises (lit "bad")). split; [right; now left | reflexivity].
Defined.

End PdfFacts.

(** ** More on [clean_text] *)

Module CleanMore.
Import Py TextProcessor Words CleanFacts SliceFacts.

Lemma join_split_go_length (s : str) :
  forall cur,
    (List.length (join [32%N] (split_go cur s)) <= List.length cur + List.length s)%nat.
Proof.
  induction s as [| c s IH]; intros cur; cbn [split_go].
  - destruct cur; cbn [join List.length]; [lia |].
    rewrite length_rev. cbn [List.length]. lia.
  - destruct (isspace c).
    + destruct cur as [| a cur].
      * specialize (IH []). cbn [List.length] in *. lia.
      * specialize (IH []).
        destruct (split_go [] s) as [| w ws] eqn:Hsplit.
        -- cbn [join]. rewrite length_rev. cbn [List.length]. lia.
        -- rewrite join_cons by discriminate.
           rewrite !length_app, length_rev. cbn [List.length] in *. lia.
    + specialize (IH (c :: cur)). cbn [List.length] in *. lia.
Qed.

(** Cleaning twice is cleaning once; the cleaned text is never longer than
    the text; and the texts that cleaning leaves as they are are those whose
    only whitespace is one space between words. *)
Theorem clean_text_idempotent (text : str) :
  clean_text (clean_text text) = clean_text text
  /\ len (clean_text text) <= len text
  /\ (clean_text text = text <-> single_spaced text).
Proof.
  split; [| split].
  - rewrite (clean_text_join (clean_text text)), !clean_text_join.
    rewrite split_join by apply split_words. reflexivity.
  - rewrite clean_text_join. unfold len, split.
    pose proof (join_split_go_length text []) as Hle. cbn [List.length] in Hle. lia.
  - split.
    + intros <-. rewrite clean_text_join.
      apply join_single_spaced, split_words.
    + intros Hss. rewrite clean_text_join.
      apply (single_spaced_join_go text []). exact Hss.
Qed.

End CleanMore.

(** ** [get_text_stats] *)

Module StatsFacts.
Import Py TextProcessor Words Stats CleanFacts StripFacts SliceFacts.

Lemma split_go_count (s : str) :
  forall cur,
    (2 * List.length (split_go cur s)
     <= List.length s + 1 + match cur with [] => 0 | _ :: _ => 1 end)%nat.
Proof.
  induction s as [| c s IH]; intros cur; cbn [split_go].
  - destruct cur; cbn [List.length]; lia.
  - destruct (isspace c).
    + specialize (IH []). destruct cur; cbn [List.length] in *; lia.
    + specialize (IH (c :: cur)). destruct cur; cbn [List.length] in *; lia.
Qed.

Lemma count_go_le (sub s : str) : forall k, 0 <= count_go sub k s <= len s.
Proof.
  unfold len. induction s as [| c s IH]; intros k; cbn [count_go List.length].
  - lia.
  - destruct k as [| k].
    + destruct (starts_with sub (c :: s)).
      * specialize (IH (List.length sub - 1)%nat). lia.
      * specialize (IH 0%nat). lia.
    + specialize (IH k). lia.
Qed.

Lemma starts_with_app (sub s : str) :
  starts_with sub s = true <-> exists r, s = sub ++ r.
Proof.
  revert s. induction sub as [| a sub IH]; intros s; cbn [starts_with].
  - split; [intros _; now exists s | reflexivity].
  - destruct s as [| b s].
    + split; [discriminate | intros (r & Hr); discriminate].
    + rewrite andb_true_iff, N.eqb_eq, IH. split.
      * intros [-> (r & ->)]. now exists r.
      * intros (r & Hr). cbn [app] in Hr. injection Hr as -> ->. eauto.
Qed.

Lemma split_sep_go_nonempty (sep s : str) :
  forall k cur, split_sep_go sep k cur s <> [].
Proof.
  induction s as [| c s IH]; intros k cur; cbn [split_sep_go]; [discriminate |].
  destruct k; [| apply IH].
  destruct (starts_with sep (c :: s)); [discriminate | apply IH].
Qed.

Lemma split_sep_go_join (sep s : str) :
  sep <> [] ->
  forall k cur, join sep (split_sep_go sep k cur s) = rev cur ++ skipn k s.
Proof.
  intros Hsep. induction s as [| c s IH]; intros k cur; cbn [split_sep_go].
  - cbn [join]. rewrite skipn_nil, app_nil_r. reflexivity.
  - destruct k as [| k]; [| apply IH].
    destruct (starts_with sep (c :: s)) eqn:Hhit.
    + apply starts_with_app in Hhit. destruct Hhit as (r & Hr).
      destruct sep as [| c0 sep']; [now destruct Hsep |].
      cbn [app] in Hr. injection Hr as <- ->.
      rewrite CleanFacts.join_cons by apply split_sep_go_nonempty.
      rewrite IH.
      replace (List.length (c :: sep') - 1)%nat with (List.length sep')
        by (cbn [List.length]; lia).
      rewrite skipn_app, skipn_all, Nat.sub_diag.
      reflexivity.
    + rewrite IH. cbn [rev skipn]. rewrite <- app_assoc. reflexivity.
Qed.

(** Joining the pieces with the separator gives the text back. *)
Lemma join_split_sep (sep s : str) :
  sep <> [] -> join sep (split_sep sep s) = s.
Proof. intros Hsep. apply (split_sep_go_join sep s Hsep 0 []). Qed.

Lemma split_go_space_app (a b : str) (c : char) :
  isspace c = true ->
  forall cur, split_go cur (a ++ c :: b) = split_go cur a ++ split_go [] b.
Proof.
  intros Hc. induction a as [| x a IH]; intros cur; cbn [app split_go].
  - rewrite Hc. destruct cur; reflexivity.
  - destruct (isspace x).
    + destruct cur; rewrite IH; reflexivity.
    + apply IH.
Qed.

Lemma split_blank_prefix (w b : str) : blank w -> split (w ++ b) = split b.
Proof.
  unfold split. induction w as [| c w IH]; intros Hw; [reflexivity |].
  apply List.Forall_cons_iff in Hw. destruct Hw as [Hc Hw].
  cbn [app split_go]. rewrite Hc. now apply IH.
Qed.

Lemma split_blank (s : str) : split s = [] <-> blank s.
Proof.
  split.
  - intros Hnil. pose proof (split_concat s) as Hcat. rewrite Hnil in Hcat.
    cbn [concat] in Hcat. symmetry in Hcat.
    apply List.Forall_forall. intros c Hc.
    destruct (isspace c) eqn:Hsp; [reflexivity |].
    assert (Hin : In c (List.filter nonspace s)).
    { apply filter_In. split; [exact Hc | unfold nonspace; now rewrite Hsp]. }
    rewrite Hcat in Hin. destruct Hin.
  - intros Hs. rewrite <- (app_nil_r s). now rewrite split_blank_prefix.
Qed.

(** The words of pieces joined by whitespace are the words of the pieces. *)
Lemma split_join_blank (c : char) (w : str) (ps : list str) :
  isspace c = true -> blank w ->
  split (join (c :: w) ps) = concat (map split ps).
Proof.
  intros Hc Hw. induction ps as [| p ps IH]; [reflexivity |].
  destruct ps as [| q ps].
  - cbn [join map concat]. now rewrite app_nil_r.
  - rewrite CleanFacts.join_cons by discriminate.
    cbn [app map concat]. unfold split at 1.
    rewrite (split_go_space_app p _ c Hc).
    fold (split p). f_equal.
    change (split_go [] (w ++ join (c :: w) (q :: ps)))
      with (split (w ++ join (c :: w) (q :: ps))).
    rewrite split_blank_prefix by exact Hw. exact IH.
Qed.

Lemma filter_strip_words (ps : list str) :
  (List.length (List.filter (fun p => nonempty (strip p)) ps)
   <= List.length (concat (map split ps)))%nat.
Proof.
  induction ps as [| p ps IH]; [reflexivity |].
  cbn [List.filter map concat]. rewrite length_app.
  destruct (strip p) as [| c r] eqn:Hs; cbn [nonempty List.length]; [lia |].
  destruct (split p) as [| w ws] eqn:Hp; cbn [List.length]; [| lia].
  apply split_blank, strip_blank in Hp. congruence.
Qed.

Lemma blank_join (sep : str) (ps : list str) :
  blank sep -> Forall blank ps -> blank (join sep ps).
Proof.
  intros Hsep. induction 1 as [| p ps Hp Hps IH]; [constructor |].
  destruct ps as [| q ps]; [exact Hp |].
  rewrite CleanFacts.join_cons by discriminate.
  apply blank_app; [exact Hp |]. apply blank_app; [exact Hsep | exact IH].
Qed.

Lemma filter_strip_nil (ps : list str) :
  List.filter (fun p => nonempty (strip p)) ps = [] -> Forall blank ps.
Proof.
  induction ps as [| p ps IH]; intros Hnil; [constructor |].
  cbn [List.filter] in Hnil.
  destruct (strip p) as [| c r] eqn:Hs; cbn [nonempty] in Hnil; [| discriminate].
  constructor; [now apply strip_blank | now apply IH].
Qed.

(** The counts of [get_text_stats] bound one another: [n] words need at least
    [2 n - 1] characters, there are no more newlines than characters and no
    more paragraphs than words, and a text has no paragraph exactly when it
    has no word, which is when it is blank. *)
Theorem get_text_stats_bounds (text : str) :
  2 * words (get_text_stats text) <= characters (get_text_stats text) + 1
  /\ 0 <= lines (get_text_stats text) <= characters (get_text_stats text)
  /\ 0 <= paragraphs (get_text_stats text) <= words (get_text_stats text)
  /\ (paragraphs (get_text_stats text) = 0 <-> words (get_text_stats text) = 0)
  /\ (words (get_text_stats text) = 0 <-> blank text).
Proof.
  cbn [get_text_stats characters words lines paragraphs].
  assert (Hwords : len (split text)
                   = len (concat (map split (split_sep [10%N; 10%N] text)))).
  { rewrite <- (split_join_blank 10%N [10%N]) by (repeat constructor).
    rewrite join_split_sep by discriminate. reflexivity. }
  assert (Hpar : len (List.filter (fun p => nonempty (strip p))
                                  (split_sep [10%N; 10%N] text))
                 <= len (split text)).
  { rewrite Hwords. unfold len. apply inj_le, filter_strip_words. }
  assert (Hblank : len (split text) = 0 <-> blank text).
  { rewrite <- split_blank. unfold len. destruct (split text); cbn; split; (lia || congruence). }
  split; [| split; [| split; [| split]]].
  - unfold len, split. pose proof (split_go_count text []) as Hc.
    cbv beta iota in Hc. lia.
  - apply count_go_le.
  - split; [apply len_nonneg | exact Hpar].
  - split.
    + intros Hzero. apply Hblank.
      rewrite <- (join_split_sep [10%N; 10%N] text) by discriminate.
      apply blank_join; [repeat constructor |].
      apply filter_strip_nil.
      unfold len in Hzero.
      destruct (List.filter _ (split_sep [10%N; 10%N] text)); [reflexivity | cbn in Hzero; lia].
    + intros Hzero. pose proof (len_nonneg
        (List.filter (fun p => nonempty (strip p)) (split_sep [10%N; 10%N] text))). lia.
  - exact Hblank.
Qed.

Lemma count_go_absent (c : char) (s : str) :
  ~ In c s -> forall k, count_go [c] k s = 0.
Proof.
  induction s as [| x s IH]; intros Hin k; [reflexivity |].
  cbn [count_go starts_with]. destruct k as [| k].
  - destruct (N.eqb_spec c x) as [-> | Hne]; [exfalso; apply Hin; now left |].
    cbn [andb]. apply IH. intros H. apply Hin. now right.
  - apply IH. intros H. apply Hin. now right.
Qed.

Lemma split_sep_go_absent (c : char) (sep' s : str) :
  ~ In c s -> forall cur, split_sep_go (c :: sep') 0 cur s = [rev cur ++ s].
Proof.
  induction s as [| x s IH]; intros Hin cur; cbn [split_sep_go starts_with].
  - now rewrite app_nil_r.
  - destruct (N.eqb_spec c x) as [-> | Hne]; [exfalso; apply Hin; now left |].
    cbn [andb]. rewrite IH by (intros H; apply Hin; now right).
    cbn [rev]. rewrite <- app_assoc. reflexivity.
Qed.

Lemma clean_text_no_newline (text : str) : ~ In 10%N (clean_text text).
Proof.
  intros Hin. apply in_split in Hin. destruct Hin as (l1 & l2 & Heq).
  pose proof (join_single_spaced (split text) (split_words text)) as Hss.
  rewrite <- clean_text_join in Hss.
  destruct (Hss l1 10%N l2 Heq eq_refl) as [Habs _]. discriminate.
Qed.

(** Cleaning a text keeps its number of words, leaves no newline and at most
    one paragraph, and does not add characters. *)
Theorem get_text_stats_clean (text : str) :
  words (get_text_stats (clean_text text)) = words (get_text_stats text)
  /\ lines (get_text_stats (clean_text text)) = 0
  /\ paragraphs (get_text_stats (clean_text text))
     = Z.min 1 (words (get_text_stats text))
  /\ characters (get_text_stats (clean_text text))
     <= characters (get_text_stats text).
Proof.
  cbn [get_text_stats characters words lines paragraphs].
  assert (Hsame : split (clean_text text) = split text).
  { rewrite clean_text_join. apply split_join, split_words. }
  split; [now rewrite Hsame | split; [| split]].
  - apply count_go_absent, clean_text_no_newline.
  - unfold split_sep.
    rewrite split_sep_go_absent by apply clean_text_no_newline.
    cbn [rev app List.filter].
    assert (Hstrip : strip (clean_text text) = clean_text text)
      by apply strip_strip.
    rewrite Hstrip.
    destruct (clean_text text) as [| c r] eqn:Hclean; cbn [nonempty].
    + assert (Hnil : split text = []) by (rewrite <- Hsame; reflexivity).
      rewrite Hnil. reflexivity.
    + destruct (split text) as [| w ws] eqn:Hsplit.
      * rewrite clean_text_join, Hsplit in Hclean. discriminate.
      * unfold len. cbn [List.length]. lia.
  - rewrite clean_text_join. unfold len, split.
    pose proof (CleanMore.join_split_go_length text []) as Hle.
    cbn [List.length] in Hle. lia.
Qed.

End StatsFacts.

(** ** The history cap below zero, and the summary *)

Module HistoryMore.
Import Py ConversationManager Summary SliceFacts.

Lemma trim_negative (max : Z) (m : message) : max < 0 -> trim max [m] = [].
Proof.
  intros Hneg. unfold trim, slice_from, adjust, len. cbn [List.length].
  change (Z.of_nat 1) with 1.
  destruct (Z.gtb_spec 1 max) as [_ | Hle]; [| lia].
  destruct (Z.ltb_spec (- max) 0) as [Hlt | _]; [lia |].
  rewrite Z.min_r by lia. reflexivity.
Qed.

Lemma add_all_negative (calls : list (str * str)) (self : t) :
  max_history self < 0 -> messages self = [] ->
  messages (add_all self calls) = [].
Proof.
  revert self. induction calls as [| c calls IH]; intros self Hneg Hnil; [exact Hnil |].
  cbn [add_all fold_left]. change (fold_left _ calls ?s) with (add_all s calls).
  apply IH; cbn [add_message max_history messages]; [exact Hneg |].
  rewrite Hnil. cbn [app]. now apply trim_negative.
Qed.

(** With a negative [max_history] nothing is kept: after any calls of
    [add_message] on a new manager the history is empty. *)
Theorem add_all_negative_cap (max : Z) (calls : list (str * str)) :
  max < 0 -> get_history (add_all (init max) calls) = [].
Proof. intros Hneg. apply add_all_negative; [exact Hneg | reflexivity]. Qed.

Lemma add_all_negative_cap_witness :
  get_history (add_all (init (-1)) [(lit "user", lit "hi"); (lit "assistant", lit "ho")])
  = [].
Proof. apply add_all_negative_cap. lia. Defined.

(** What the summary shows of a content: all of it up to 100 characters,
    else its first 100 characters and three dots, so never more than 103
    characters, and always the first 100 characters of the content. *)
Lemma shown_bounds (content : str) :
  len (shown content) <= 103
  /\ firstn 100 (shown content) = firstn 100 content
  /\ (len content <= 100 -> shown content = content)
  /\ (100 < len content ->
      shown content = firstn 100 content ++ lit "..."
      /\ len (shown content) = 103).
Proof.
  unfold shown.
  destruct (Z.gtb_spec (len content) 100) as [Hlong | Hshort].
  - rewrite slice_to_nonneg by lia.
    change (Z.to_nat 100) with 100%nat.
    assert (Hlen : List.length (firstn 100 content) = 100%nat)
      by (rewrite length_firstn; unfold len in Hlong; lia).
    assert (Htotal : len (firstn 100 content ++ lit "...") = 103).
    { unfold len. rewrite length_app, Hlen. reflexivity. }
    split; [lia | split; [| split; [lia | now split]]].
    rewrite firstn_app, Hlen, Nat.sub_diag, firstn_firstn. cbn [firstn].
    now rewrite app_nil_r.
  - split; [lia | split; [reflexivity | split; [reflexivity | lia]]].
Qed.

Section Upper.
Variable upper : str -> str.

Lemma summary_line_length (msg : message) :
  len (summary_line upper msg) <= len (upper (role msg)) + 105.
Proof.
  unfold summary_line. rewrite !len_app.
  destruct (shown_bounds (content msg)) as (Hle & _).
  change (len (lit ": ")) with 2. lia.
Qed.

(** The size of the summary is bounded by the number of messages, whatever
    the length of their contents: with roles whose upper-case form has at
    most [r] characters, [n] messages give at most [n * (r + 106)]
    characters, since each content is shown in at most 103 characters (all of
    it up to 100, else its first 100 and three dots). *)
Theorem get_summary_bounded (self : ConversationManager.t) (r : Z) :
  Forall (fun msg => len (upper (role msg)) <= r) (messages self) ->
  len (get_summary upper self) <= len (messages self) * (r + 106)
  /\ Forall (fun msg => len (shown (content msg)) <= 103
                        /\ firstn 100 (shown (content msg)) = firstn 100 (content msg))
            (messages self).
Proof.
  intros Hroles. split.
  - unfold get_summary. induction Hroles as [| msg msgs Hr Hrs IH].
    + reflexivity.
    + pose proof (summary_line_length msg) as Hline.
      assert (Hcons : len (msg :: msgs) = 1 + len msgs)
        by (unfold len; cbn [List.length]; lia).
      rewrite Hcons.
      destruct msgs as [| msg' msgs].
      * cbn [map join]. change (len (@nil message)) with 0. lia.
      * change (map (summary_line upper) (msg :: msg' :: msgs))
          with (summary_line upper msg :: map (summary_line upper) (msg' :: msgs)).
        rewrite CleanFacts.join_cons by discriminate.
        rewrite !len_app. change (len [10%N]) with 1. lia.
  - apply List.Forall_forall. intros msg _.
    destruct (shown_bounds (content msg)) as (H1 & H2 & _). now split.
Qed.

End Upper.

(** Two messages, the second with a content of 101 characters; upper case is
    left out. *)
Lemma get_summary_bounded_witness :
  len (get_summary (fun r => r)
         (ConversationManager.Manager
            [Message (lit "user") (lit "hi");
             Message (lit "assistant") (repeat 120%N 101)] 20))
  <= 2 * (9 + 106).
Proof.
  apply (get_summary_bounded (fun r => r)
           (ConversationManager.Manager
              [Message (lit "user") (lit "hi");
               Message (lit "assistant") (repeat 120%N 101)] 20) 9).
  repeat constructor; vm_compute; discriminate.
Defined.

End HistoryMore.

(** ** Credentials and the module-level functions of [main.py] *)

Module AzureFacts.
Import Py Exc AzureClient Recent SliceFacts.

Lemma init_cases (env : gmap str str) :
  (configured env (lit "AZURE_API_KEY") /\ configured env (lit "AZURE_ENDPOINT")
   /\ exists c, init env = Ok c
        /\ env !! lit "AZURE_API_KEY" = Some (api_key c)
        /\ env !! lit "AZURE_ENDPOINT" = Some (endpoint c)
        /\ api_version c
           = default (lit "2024-02-15-preview") (env !! lit "AZURE_API_VERSION")
        /\ model_name c = default (lit "gpt-4") (env !! lit "MODEL_NAME"))
  \/ (~ (configured env (lit "AZURE_API_KEY") /\ configured env (lit "AZURE_ENDPOINT"))
      /\ init env = Raise not_configured).
Proof.
  unfold init, configured.
  destruct (env !! lit "AZURE_API_KEY") as [[| a k] |] eqn:Hk.
  - right. split; [| reflexivity]. intros [(v & Hv & Hne) _].
    rewrite ?Hk in Hv; first [discriminate Hv | injection Hv as <-; now destruct Hne].
  - destruct (env !! lit "AZURE_ENDPOINT") as [[| b e] |] eqn:He.
    + right. split; [| reflexivity]. intros [_ (v & Hv & Hne)].
      rewrite ?He in Hv; first [discriminate Hv | injection Hv as <-; now destruct Hne].
    + left. split; [eexists; split; [reflexivity | discriminate] |].
      split; [eexists; split; [reflexivity | discriminate] |].
      eexists. split; [reflexivity |]. cbn [api_key endpoint api_version model_name].
      repeat split.
    + right. split; [| reflexivity]. intros [_ (v & Hv & Hne)].
      rewrite ?He in Hv; first [discriminate Hv | injection Hv as <-; now destruct Hne].
  - right. split; [| reflexivity]. intros [(v & Hv & Hne) _].
    rewrite ?Hk in Hv; first [discriminate Hv | injection Hv as <-; now destruct Hne].
Qed.

(** [AIClient()] succeeds exactly when [AZURE_API_KEY] and [AZURE_ENDPOINT]
    are both set and not empty, and then holds their values, with the
    defaults for a version or model name that is not set. Otherwise it raises
    [ValueError], and so does the module-level [get_system_prompt], although
    the prompt it returns is a constant. *)
Theorem init_needs_credentials (env : gmap str str) :
  ((exists c, init env = Ok c)
   <-> configured env (lit "AZURE_API_KEY") /\ configured env (lit "AZURE_ENDPOINT"))
  /\ (forall c,
        init env = Ok c ->
        env !! lit "AZURE_API_KEY" = Some (api_key c)
        /\ env !! lit "AZURE_ENDPOINT" = Some (endpoint c)
        /\ api_version c
           = default (lit "2024-02-15-preview") (env !! lit "AZURE_API_VERSION")
        /\ model_name c = default (lit "gpt-4") (env !! lit "MODEL_NAME")
        /\ legacy_get_system_prompt env = Ok AIClient.get_system_prompt)
  /\ (~ (configured env (lit "AZURE_API_KEY") /\ configured env (lit "AZURE_ENDPOINT")) ->
        init env = Raise not_configured
        /\ legacy_get_system_prompt env = Raise not_configured).
Proof.
  destruct (init_cases env) as [(Hk & He & c & Hc & H1 & H2 & H3 & H4) | [Hno Hraise]].
  - split; [| split].
    + split; [intros _; now split | intros _; eauto].
    + intros c' Hc'. rewrite Hc in Hc'. injection Hc' as <-.
      unfold legacy_get_system_prompt. rewrite Hc. repeat split; assumption.
    + intros Hno. exfalso. apply Hno. now split.
  - split; [| split].
    + split; [intros (c & Hc); congruence | intros Hyes; now destruct Hno].
    + intros c Hc. congruence.
    + intros _. unfold legacy_get_system_prompt. rewrite Hraise. now split.
Qed.

(** An endpoint that is set to the empty text counts as missing. *)
Lemma init_needs_credentials_witness :
  init (<[lit "AZURE_ENDPOINT" := []]> {[ lit "AZURE_API_KEY" := lit "k" ]})
  = Raise not_configured
  /\ legacy_get_system_prompt
       (<[lit "AZURE_ENDPOINT" := []]> {[ lit "AZURE_API_KEY" := lit "k" ]})
     = Raise not_configured.
Proof.
  apply (proj2 (proj2 (init_needs_credentials
    (<[lit "AZURE_ENDPOINT" := []]> {[ lit "AZURE_API_KEY" := lit "k" ]})))).
  intros [_ (v & Hv & Hne)]. vm_compute in Hv.
  injection Hv as <-. now destruct Hne.
Defined.

Section Service.
Variable create : call -> str + str.

(** When the messages are the system prompt, the context message and a
    history of at most ten entries, the module-level [ask_question] returns
    what [AIClient.ask_question] returns for that history, with the
    exception, if one is raised, turned into a text that starts with
    ["Error: "]. *)
Theorem legacy_ask_question_agrees
    (env : gmap str str) (c : client) (question pdf_context : str)
    (history : list message) :
  init env = Ok c ->
  (List.length history <= 10)%nat ->
  legacy_ask_question create env
    ([ Message (lit "system") AIClient.get_system_prompt;
       Message (lit "user")
         (lit "PDF Content:" ++ AIClient.nl ++ AIClient.nl ++ pdf_context) ]
     ++ history) question
  = match ask_question create c question pdf_context (Some history) with
    | Ok answer => answer
    | Raise e => lit "Error: " ++ message_of e
    end.
Proof.
  intros Hc Hlen. unfold legacy_ask_question, ask_question. rewrite Hc.
  replace (AIClient.ask_question_messages question pdf_context (Some history))
    with (([ Message (lit "system") AIClient.get_system_prompt;
             Message (lit "user")
               (lit "PDF Content:" ++ AIClient.nl ++ AIClient.nl ++ pdf_context) ]
           ++ history) ++ [Message (lit "user") question]); [reflexivity |].
  unfold AIClient.ask_question_messages.
  destruct history as [| m h]; [reflexivity |].
  change (slice_from (m :: h) (-10)) with (slice_from (m :: h) (- (10))).
  rewrite (slice_from_neg (m :: h) 10) by lia.
  rewrite last_n_all by exact Hlen. reflexivity.
Qed.

(** The module-level [ask_question] returns the content the service gives,
    or a text that starts with ["Error: "]. *)
Lemma legacy_ask_question_total
    (env : gmap str str) (messages : list message) (user_query : str) :
  (exists c content,
      init env = Ok c
      /\ create (Call (model_name c)
                      (messages ++ [Message (lit "user") user_query]) 30 1500)
         = inl content
      /\ legacy_ask_question create env messages user_query = content)
  \/ (exists reason,
        legacy_ask_question create env messages user_query = lit "Error: " ++ reason).
Proof.
  unfold legacy_ask_question, chat_completion.
  destruct (init env) as [c | e]; [| right; eauto].
  destruct (create _) as [content | e] eqn:Hcreate; [left | right; eauto].
  exists c, content. now split.
Qed.

End Service.

Lemma legacy_ask_question_agrees_witness :
  legacy_ask_question (fun _ => inr (lit "down"))
    (<[lit "AZURE_ENDPOINT" := lit "e"]> {[ lit "AZURE_API_KEY" := lit "k" ]})
    ([ Message (lit "system") AIClient.get_system_prompt;
       Message (lit "user") (lit "PDF Content:" ++ AIClient.nl ++ AIClient.nl ++ lit "doc") ]
     ++ [Message (lit "user") (lit "hi")])
    (lit "why?")
  = lit "Error: AI request failed: down".
Proof.
  rewrite (legacy_ask_question_agrees (fun _ => inr (lit "down")) _
             (Client (lit "k") (lit "e") (lit "2024-02-15-preview") (lit "gpt-4")));
    [reflexivity | vm_compute; reflexivity | cbn; lia].
Defined.

End AzureFacts.

(** ** The prompt and the replies of [OllamaAssistant] *)

Module OllamaFacts.
Import Py Exc App Ollama SliceFacts AppFacts.

Lemma chat_context_prefix (ctx ctx' : str) :
  budget < len ctx -> budget < len ctx' ->
  firstn 3000 ctx = firstn 3000 ctx' ->
  chat_context ctx = chat_context ctx'.
Proof.
  intros Hl Hl' Heq. rewrite !chat_context_long by assumption. now rewrite Heq.
Qed.

Lemma join_first_long (sep d : str) (rest : list str) :
  exists r, join sep (d :: rest) = d ++ r.
Proof.
  destruct rest as [| e rest].
  - exists []. cbn [join]. now rewrite app_nil_r.
  - eexists. reflexivity.
Qed.

(** What lies beyond the first 3000 characters of the joined documents never
    reaches the model: two contexts of more than 3000 characters that agree
    on their first 3000 give the same call, and when the first document has
    more than 3000 characters the other documents make no difference. *)
Theorem chat_ignores_beyond_budget
    (post : payload -> post_result) (model_name user_query : str) :
  (forall ctx ctx' : str,
      3000 < len ctx -> 3000 < len ctx' ->
      firstn 3000 ctx = firstn 3000 ctx' ->
      chat post model_name user_query ctx = chat post model_name user_query ctx')
  /\ (forall (d : str) (rest : list str),
        3000 < len d ->
        chat post model_name user_query (main_pdf_context (d :: rest))
        = chat post model_name user_query (main_pdf_context [d])).
Proof.
  assert (Hfirst : forall ctx ctx' : str,
             3000 < len ctx -> 3000 < len ctx' ->
             firstn 3000 ctx = firstn 3000 ctx' ->
             chat post model_name user_query ctx
             = chat post model_name user_query ctx').
  { intros ctx ctx' Hl Hl' Heq. unfold chat, chat_prompt.
    now rewrite (chat_context_prefix ctx ctx' Hl Hl' Heq). }
  split; [exact Hfirst |].
  intros d rest Hd. rewrite !main_pdf_context_join.
  destruct (join_first_long [10%N; 10%N] d rest) as (r & Hr).
  apply Hfirst.
  - rewrite Hr, len_app. pose proof (len_nonneg r). lia.
  - exact Hd.
  - rewrite Hr. cbn [join]. rewrite firstn_app.
    replace (3000 - List.length d)%nat with 0%nat by (unfold len in Hd; lia).
    cbn [firstn]. now rewrite app_nil_r.
Qed.

Lemma chat_ignores_beyond_budget_witness :
  chat (fun p => PostReturns 200 (BodyResponse (Some (p_prompt p)))) (lit "m") (lit "q")
       (main_pdf_context [repeat 120%N 3001; lit "second document"])
  = chat (fun p => PostReturns 200 (BodyResponse (Some (p_prompt p)))) (lit "m") (lit "q")
         (main_pdf_context [repeat 120%N 3001]).
Proof.
  apply (proj2 (chat_ignores_beyond_budget _ (lit "m") (lit "q"))).
  vm_compute. reflexivity.
Defined.

(** The prompt is the bare question when there is no context, and else the
    question after the context of at most 3024 characters: it is never more
    than 3107 characters longer than the question. *)
Theorem chat_prompt_bound (user_query pdf_context : str) :
  (pdf_context = [] -> chat_prompt user_query pdf_context = user_query)
  /\ (pdf_context <> [] ->
      chat_prompt user_query pdf_context
      = lit "Answer the question based on this document:" ++ [10%N; 10%N]
        ++ lit "DOCUMENT:" ++ [10%N] ++ chat_context pdf_context ++ [10%N; 10%N]
        ++ lit "QUESTION: " ++ user_query ++ [10%N; 10%N] ++ lit "ANSWER:")
  /\ len (chat_prompt user_query pdf_context) <= len user_query + 3107.
Proof.
  assert (Hnonempty : pdf_context <> [] -> chat_context pdf_context <> []).
  { intros Hne. destruct (Z.le_gt_cases (len pdf_context) budget) as [Hle | Hgt].
    - now rewrite chat_context_short.
    - rewrite chat_context_long by lia. unfold marker. intros Hnil.
      apply app_eq_nil in Hnil. destruct Hnil as [_ Hnil]. discriminate. }
  split; [| split].
  - intros ->. reflexivity.
  - intros Hne. unfold chat_prompt.
    destruct (chat_context pdf_context) eqn:Hctx; [now apply Hnonempty in Hne | reflexivity].
  - pose proof (chat_context_length pdf_context) as Hlen.
    pose proof (len_nonneg user_query).
    unfold chat_prompt.
    destruct (chat_context pdf_context) as [| c r] eqn:Hctx; [lia |].
    rewrite !len_app. unfold budget in Hlen.
    change (len marker) with 24 in Hlen.
    change (len (lit "Answer the question based on this document:")) with 43.
    change (len (lit "DOCUMENT:")) with 9.
    change (len (lit "QUESTION: ")) with 10.
    change (len (lit "ANSWER:")) with 7.
    change (len [10%N; 10%N]) with 2. change (len [10%N]) with 1.
    lia.
Qed.

Lemma chat_prompt_bound_witness :
  chat_prompt (lit "why?") (lit "doc")
  = lit "Answer the question based on this document:" ++ [10%N; 10%N]
    ++ lit "DOCUMENT:" ++ [10%N] ++ lit "doc" ++ [10%N; 10%N]
    ++ lit "QUESTION: " ++ lit "why?" ++ [10%N; 10%N] ++ lit "ANSWER:".
Proof.
  rewrite (proj1 (proj2 (chat_prompt_bound (lit "why?") (lit "doc"))));
    [reflexivity | discriminate].
Defined.

Lemma names_of_some (models : list (option str)) (names : list str) :
  names_of models = Some names <-> models = map Some names.
Proof.
  revert names. induction models as [| [name |] models IH]; intros names; cbn [names_of].
  - split; [intros [= <-]; reflexivity | destruct names; [reflexivity | discriminate]].
  - destruct (names_of models) as [ns |] eqn:Hns.
    + split.
      * intros [= <-]. cbn [map]. f_equal. now apply IH.
      * destruct names as [| n names]; [discriminate |].
        cbn [map]. intros [= -> Hm]. apply IH in Hm. congruence.
    + split; [discriminate |].
      destruct names as [| n names]; [discriminate |].
      cbn [map]. intros [= -> Hm]. apply IH in Hm. discriminate.
  - split; [discriminate | destruct names; discriminate].
Qed.

(** [get_available_models] gives all the names or none: a list that is not
    empty comes from a reply with status 200 whose models all have a name,
    and is these names in their order; one model without a name, like any
    other failure, gives the empty list. *)
Theorem get_available_models_all_or_none (reply : tags_reply) :
  (get_available_models reply <> [] ->
     exists models,
       reply = Some (200, TagsModels (Some models))
       /\ models = map Some (get_available_models reply))
  /\ (forall status models,
        reply = Some (status, TagsModels (Some models)) ->
        In None models -> get_available_models reply = []).
Proof.
  split.
  - unfold get_available_models. intros Hne.
    destruct reply as [[status body] |]; [| now destruct Hne].
    destruct (Z.eqb_spec status 200) as [-> | _]; [| now destruct Hne].
    destruct body as [| [models |]]; try now destruct Hne.
    destruct (names_of models) as [names |] eqn:Hnames; [| now destruct Hne].
    exists models. split; [reflexivity | now apply names_of_some].
  - intros status models -> Hin. unfold get_available_models.
    destruct (status =? 200); [| reflexivity].
    destruct (names_of models) as [names |] eqn:Hnames; [| reflexivity].
    apply names_of_some in Hnames. subst models.
    apply in_map_iff in Hin. destruct Hin as (n & Hn & _). discriminate.
Qed.

Lemma get_available_models_all_or_none_witness :
  get_available_models
    (Some (200, TagsModels (Some [Some (lit "llama3:latest"); None; Some (lit "gemma3:1b")])))
  = [].
Proof.
  eapply (proj2 (get_available_models_all_or_none _)); [reflexivity |].
  right. now left.
Defined.

End OllamaFacts.

(** ** The session of [app.py] *)

Module SessionFacts.
Import Py Pdf Ollama Session StripFacts.

(** [models.index(x)] finds the first position of a member. *)
Lemma index_found (x : str) (models : list str) :
  In x models ->
  exists i, index x models = Some i
            /\ nth_error models i = Some x
            /\ forall j, (j < i)%nat -> nth_error models j <> Some x.
Proof.
  induction models as [| m models IH]; intros Hin; [destruct Hin |].
  cbn [index]. destruct (bool_decide_reflect (m = x)) as [-> | Hne].
  - exists 0%nat. split; [reflexivity | split; [reflexivity | intros j Hj; lia]].
  - destruct Hin as [-> | Hin]; [now destruct Hne |].
    destruct (IH Hin) as (i & Hi & Hnth & Hfirst). rewrite Hi.
    exists (S i). split; [reflexivity | split; [exact Hnth |]].
    intros [| j] Hj; cbn [nth_error].
    + intros Heq. injection Heq as Heq. now destruct Hne.
    + apply Hfirst. lia.
Qed.

Lemma default_model_in (models : list str) :
  models <> [] -> In (default_model models) models.
Proof.
  intros Hne. unfold default_model.
  destruct (bool_decide_reflect (lit "gemma3:1b" ∈ models)) as [Hin | _].
  - now apply list_elem_of_In.
  - destruct models as [| m models]; [now destruct Hne | now left].
Qed.

(** For a list of models that is not empty, [models.index] on line 118 does
    not raise, so the [except] branch is never taken, and the index [main]
    preselects is the first position of the default model: the first
    position of ["gemma3:1b"] when the server has that model, and 0, the
    position of [models[0]], otherwise. *)
Theorem default_index_in_range (models : list str) :
  models <> [] ->
  index (default_model models) models = Some (default_index models)
  /\ (default_index models < List.length models)%nat
  /\ (In (lit "gemma3:1b") models ->
      nth_error models (default_index models) = Some (lit "gemma3:1b")
      /\ forall j, (j < default_index models)%nat ->
                   nth_error models j <> Some (lit "gemma3:1b"))
  /\ (~ In (lit "gemma3:1b") models ->
      default_index models = 0%nat
      /\ nth_error models 0 = Some (default_model models)).
Proof.
  intros Hne.
  destruct (index_found _ _ (default_model_in models Hne))
    as (i & Hi & Hnth & Hfirst).
  unfold default_index. rewrite Hi.
  split; [reflexivity |].
  split; [apply nth_error_Some; rewrite Hnth; discriminate |].
  unfold default_model in *.
  destruct (bool_decide_reflect (lit "gemma3:1b" ∈ models)) as [Hin | Hnot].
  - split; [intros _; split; [exact Hnth | exact Hfirst] |].
    intros Hno. apply list_elem_of_In in Hin. now destruct Hno.
  - split; [intros Hin; apply list_elem_of_In in Hin; now destruct Hnot |].
    intros _. destruct models as [| m models]; [now destruct Hne |].
    cbn [List.hd index] in Hi.
    rewrite bool_decide_eq_true_2 in Hi by reflexivity.
    injection Hi as <-. split; reflexivity.
Qed.

(** The model is the third and the fifth of five: the index is 2. *)
Lemma default_index_in_range_witness :
  default_index [lit "llama3:latest"; lit "phi3"; lit "gemma3:1b";
                 lit "mistral"; lit "gemma3:1b"] = 2%nat
  /\ index (default_model [lit "llama3:latest"; lit "phi3"; lit "gemma3:1b";
                           lit "mistral"; lit "gemma3:1b"])
           [lit "llama3:latest"; lit "phi3"; lit "gemma3:1b";
            lit "mistral"; lit "gemma3:1b"]
     = Some 2%nat.
Proof.
  destruct (default_index_in_range
              [lit "llama3:latest"; lit "phi3"; lit "gemma3:1b";
               lit "mistral"; lit "gemma3:1b"]) as (Hidx & _);
    [discriminate |].
  split; [vm_compute; reflexivity | rewrite Hidx; vm_compute; reflexivity].
Defined.

Lemma extract_text_stripped (f : pdf) :
  strip (PDFProcessor.extract_text f) = PDFProcessor.extract_text f.
Proof.
  unfold PDFProcessor.extract_text. destruct f as [ps | e]; [| reflexivity].
  destruct (PDFProcessor.read_pages 0 ps []); [apply strip_strip | reflexivity].
Qed.

Lemma process_files_spec (uploaded_files : list upload) :
  forall texts names,
    process_files uploaded_files texts names
    = (texts ++ map (fun f => PDFProcessor.extract_text (file f)) (with_text uploaded_files),
       names ++ map name (with_text uploaded_files)).
Proof.
  unfold with_text.
  induction uploaded_files as [| f files IH]; intros texts names;
    cbn [process_files List.filter map].
  - now rewrite !app_nil_r.
  - destruct (PDFProcessor.extract_text (file f)) as [| c r] eqn:Hf;
      cbn [Stats.nonempty].
    + apply IH.
    + rewrite IH. cbn [map]. rewrite Hf, <- !app_assoc. reflexivity.
Qed.

Lemma process_fields (uploaded_files : list upload) (s : session) :
  s_pdf_texts (process uploaded_files s)
  = map (fun f => PDFProcessor.extract_text (file f)) (with_text uploaded_files)
  /\ s_pdf_names (process uploaded_files s) = map name (with_text uploaded_files)
  /\ s_messages (process uploaded_files s)
     = match with_text uploaded_files with
       | [] => s_messages s
       | _ :: _ => []
       end
  /\ s_selected_model (process uploaded_files s) = s_selected_model s.
Proof.
  unfold process. rewrite process_files_spec. cbn [app].
  cbn [s_pdf_texts s_pdf_names s_messages s_selected_model].
  repeat split. destruct (with_text uploaded_files); reflexivity.
Qed.

(** The Process button: the files that give no text are left out of both
    lists, which keep the order of the upload and stay in step; the chat
    history is emptied exactly when at least one file gives text, so a
    failed upload removes the documents and keeps the conversation. *)
Theorem process_keeps_files_with_text (uploaded_files : list upload) (s : session) :
  s_pdf_texts (process uploaded_files s)
  = map (fun f => PDFProcessor.extract_text (file f)) (with_text uploaded_files)
  /\ s_pdf_names (process uploaded_files s) = map name (with_text uploaded_files)
  /\ s_messages (process uploaded_files s)
     = match with_text uploaded_files with
       | [] => s_messages s
       | _ :: _ => []
       end
  /\ s_selected_model (process uploaded_files s) = s_selected_model s.
Proof. apply process_fields. Qed.

Lemma with_text_texts (uploaded_files : list upload) :
  Forall (fun t => t <> [] /\ strip t = t)
         (map (fun f => PDFProcessor.extract_text (file f)) (with_text uploaded_files)).
Proof.
  unfold with_text. apply List.Forall_forall. intros t Hin.
  apply in_map_iff in Hin. destruct Hin as (f & <- & Hf).
  apply filter_In in Hf. destruct Hf as [_ Hf].
  split; [| apply extract_text_stripped].
  destruct (PDFProcessor.extract_text (file f)); [discriminate | discriminate].
Qed.

Lemma process_consistent (uploaded_files : list upload) (s : session) :
  consistent s -> consistent (process uploaded_files s).
Proof.
  intros (_ & _ & turns & Hturns).
  destruct (process_fields uploaded_files s) as (Ht & Hn & Hm & _).
  unfold consistent. rewrite Ht, Hn, Hm.
  split; [now rewrite !length_map |].
  split; [apply with_text_texts |].
  destruct (with_text uploaded_files); [exists turns; exact Hturns | now exists []].
Qed.

Lemma ask_consistent (post : payload -> post_result) (q : str) (s : session) :
  consistent s -> consistent (ask post q s).
Proof.
  intros (Hlen & Htexts & turns & Hturns). unfold consistent, ask.
  cbn [s_pdf_texts s_pdf_names s_messages].
  split; [exact Hlen | split; [exact Htexts |]].
  exists (turns ++ [(q, chat post (s_selected_model s) q
                          (App.main_pdf_context (s_pdf_texts s)))]).
  unfold dialogue in *. rewrite flat_map_app, Hturns. cbn [flat_map fst snd app].
  rewrite <- app_assoc. reflexivity.
Qed.

Lemma main_consistent (i : run_inputs) (st : session_state) :
  consistent (initialize_session_state st) -> consistent (main i st).
Proof.
  intros Hinit. unfold main.
  set (s0 := initialize_session_state st) in *.
  set (s1 := match get_available_models (tags i) with
             | [] => s0
             | _ :: _ => Session (s_messages s0) (s_pdf_texts s0)
                                 (s_pdf_names s0) (selectbox i)
             end).
  assert (H1 : consistent s1).
  { subst s1. destruct (get_available_models (tags i)); exact Hinit. }
  set (s2 := match uploaded_files i with
             | [] => s1
             | _ :: _ => if process_button i
                         then process (uploaded_files i) s1 else s1
             end).
  assert (H2 : consistent s2).
  { subst s2. destruct (uploaded_files i); [exact H1 |].
    destruct (process_button i); [now apply process_consistent | exact H1]. }
  assert (Hask : consistent
                   match chat_input i with
                   | Some ((_ :: _) as user_input) => ask (post i) user_input s2
                   | _ => s2
                   end).
  { destruct (chat_input i) as [[| c q] |]; [exact H2 | | exact H2].
    now apply ask_consistent. }
  destruct (s_pdf_names s2); [exact Hask |].
  destruct (clear_button i); [| exact Hask].
  unfold consistent, clear. cbn [s_pdf_texts s_pdf_names s_messages].
  split; [reflexivity | split; [constructor | now exists []]].
Qed.

(** After any runs of [main] on a new session, whatever the uploads, the
    buttons, the questions and the replies of the server: every stored text
    has its name, no stored text is empty or has whitespace at either end,
    and the messages are questions and answers in turn. *)
Theorem runs_consistent (inputs : list run_inputs) :
  consistent (initialize_session_state (runs inputs)).
Proof.
  unfold runs.
  assert (Hgen : forall st,
             consistent (initialize_session_state st) ->
             consistent (initialize_session_state
                           (fold_left (fun st i => stored (main i st)) inputs st))).
  { induction inputs as [| i inputs IH]; intros st Hst; [exact Hst |].
    cbn [fold_left]. apply IH.
    pose proof (main_consistent i st Hst) as Hmain.
    destruct (main i st) as [ms ts ns sel]. exact Hmain. }
  apply Hgen.
  split; [reflexivity | split; [constructor | now exists []]].
Qed.

End SessionFacts.

(** ** Page headers *)

Module HeaderFacts.
Import Py Exc Pdf.

Lemma uint_digits_inj (u v : Decimal.uint) :
  uint_digits u = uint_digits v -> u = v.
Proof.
  revert v. induction u; intros v Heq; destruct v; cbn [uint_digits] in Heq;
    try discriminate; try reflexivity;
    injection Heq as Heq; f_equal; now apply IHu.
Qed.

Lemma uint_digits_no_bracket (u : Decimal.uint) : ~ In 93%N (uint_digits u).
Proof.
  induction u; cbn [uint_digits In]; intros H;
    try (destruct H as [H | H]; [discriminate | now apply IHu]).
  exact H.
Qed.

Lemma uint_digits_no_minus (u : Decimal.uint) (r : str) :
  uint_digits u <> 45%N :: r.
Proof. destruct u; cbn [uint_digits]; discriminate. Qed.

(** [str(n)] tells the integers apart. *)
Lemma str_of_int_inj (a b : Z) : str_of_int a = str_of_int b -> a = b.
Proof.
  unfold str_of_int. intros Heq.
  rewrite <- (DecimalZ.of_to a), <- (DecimalZ.of_to b).
  destruct (Z.to_int a) as [u | u], (Z.to_int b) as [v | v].
  - apply uint_digits_inj in Heq. now subst.
  - now apply uint_digits_no_minus in Heq.
  - symmetry in Heq. now apply uint_digits_no_minus in Heq.
  - injection Heq as Heq. apply uint_digits_inj in Heq. now subst.
Qed.

Lemma str_of_int_no_bracket (a : Z) : ~ In 93%N (str_of_int a).
Proof.
  unfold str_of_int. destruct (Z.to_int a) as [u | u]; cbn [In].
  - apply uint_digits_no_bracket.
  - intros [H | H]; [discriminate | now apply uint_digits_no_bracket in H].
Qed.

Lemma cut_at_first (c : char) (x y r r' : str) :
  ~ In c x -> ~ In c y -> x ++ c :: r = y ++ c :: r' -> x = y /\ r = r'.
Proof.
  revert y. induction x as [| a x IH]; intros y Hx Hy Heq.
  - destruct y as [| b y]; cbn [app] in Heq.
    + injection Heq as ->. now split.
    + injection Heq as <- _. exfalso. apply Hy. now left.
  - destruct y as [| b y]; cbn [app] in Heq.
    + injection Heq as -> _. exfalso. apply Hx. now left.
    + injection Heq as -> Heq.
      destruct (IH y) as [-> ->]; [| | exact Heq | now split].
      * intros H. apply Hx. now right.
      * intros H. apply Hy. now right.
Qed.

(** The part of a page, header and text, determines the page number and the
    text: parts of different pages differ, and a header is never taken for
    that of another page. *)
Theorem page_part_injective (i j : Z) (t t' : str) :
  page_part i t = page_part j t' -> i = j /\ t = t'.
Proof.
  unfold page_part. intros Heq.
  apply app_inv_head in Heq.
  change (lit "]" ++ [10%N] ++ t) with (93%N :: 10%N :: t) in Heq.
  change (lit "]" ++ [10%N] ++ t') with (93%N :: 10%N :: t') in Heq.
  apply cut_at_first in Heq; try apply str_of_int_no_bracket.
  destruct Heq as [Hnum Ht]. injection Ht as ->.
  apply str_of_int_inj in Hnum. split; [lia | reflexivity].
Qed.

Lemma page_part_injective_witness : 11 = 11 /\ lit "]" = lit "]".
Proof. apply (page_part_injective 11 11 (lit "]") (lit "]")). reflexivity. Defined.

End HeaderFacts.
